(** * Pinpoint export plugin: event grouping, normalisation and dispatch

    A shallow embedding of the two source files of the plugin,
    [src/index.ts] (module [Index]) and the second variant of the same
    file (module [Part0]), together with the properties of the batching
    core that hold of them.

    The values of event properties are JSON values.  A plain object is
    given by its own members and inherits from [Object.prototype]: the
    lookups and assignments of the source that go through a computed
    key see the inherited members and the [__proto__] accessor.  Random
    draws, generated ids, the wall clock, the console and the outbound
    Pinpoint client are threaded through an explicit [World]. *)

From Stdlib Require Import ZArith String Ascii List Lia.
From stdpp Require Import base option gmap strings list pretty.

Set Warnings "-register-all,-clear-no-such-hyp".
Open Scope string_scope.
Open Scope Z_scope.

(** ** Completions *)

(** How an evaluation ends: with a value, or with an exception. *)
Inductive Error : Type :=
  | TypeError
  | ConfigError (message : string).

Inductive Completion (A : Type) : Type :=
  | Normal (a : A)
  | Throw (e : Error).
Arguments Normal {A} a.
Arguments Throw {A} e.

(** Sequencing of evaluations that read and write nothing. *)
Definition and_then {A B : Type} (c : Completion A) (f : A -> Completion B)
    : Completion B :=
  match c with
  | Normal a => f a
  | Throw e => Throw e
  end.

Notation "'try*' x ':=' c 'in' k" := (and_then c (fun x => k))
  (at level 10, x pattern, c at level 100, k at level 200).

Definition is_Normal {A : Type} (c : Completion A) : bool :=
  match c with
  | Normal _ => true
  | Throw _ => false
  end.

(** ** JavaScript values *)

(** Numbers are IEEE doubles in the source.  Only three observations of
    a number are ever made by the plugin, so the number type is a class
    parameter carrying exactly those. *)
Class JSNumber (number : Type) := {
  (** [Number.prototype.toString()] *)
  number_toString : number -> string;
  (** [false] for [0], [-0] and [NaN] *)
  number_truthy : number -> bool;
  (** [false] for [NaN] and the infinities, which JSON prints as [null] *)
  number_finite : number -> bool
}.

(** Integers as a concrete number type. *)
#[export] Instance Z_JSNumber : JSNumber Z := {
  number_toString := pretty;
  number_truthy := fun z => negb (z =? 0);
  number_finite := fun _ => true
}.

Section Values.
Context {number : Type} `{JSNumber number}.

(** The values a property of an event can hold ([Record<string, any>]
    as it arrives from JSON), with [undefined] for a missing one. *)
Inductive value : Type :=
  | VUndefined
  | VNull
  | VBool (b : bool)
  | VNum (n : number)
  | VStr (s : string)
  | VArr (items : list value)
  | VObj (members : list (string * value)).

Definition bool_toString (b : bool) : string :=
  if b then "true" else "false".

Definition string_truthy (s : string) : bool :=
  match s with EmptyString => false | _ => true end.

(** ToBoolean *)
Definition truthy (v : value) : bool :=
  match v with
  | VUndefined | VNull => false
  | VBool b => b
  | VNum n => number_truthy n
  | VStr s => string_truthy s
  | VArr _ | VObj _ => true
  end.

(** [a || b] *)
Definition js_or (a b : value) : value := if truthy a then a else b.

(** Whether an object has an own member of that name. *)
Definition has_own (key : string) (o : list (string * value)) : bool :=
  existsb (fun kv => String.eqb (fst kv) key) o.

(** ToString, as applied by [v.toString()], by a template string and
    by a computed property key [obj[v]].  An array joins its elements
    with commas, printing [null] and [undefined] elements as nothing.
    An object prints through [Object.prototype.toString] unless it has
    an own member named [toString]: a JSON value is not a function, so
    calling it, or converting the object, throws a [TypeError]. *)
Fixpoint ToString (v : value) : Completion string :=
  match v with
  | VUndefined => Normal "undefined"
  | VNull => Normal "null"
  | VBool b => Normal (bool_toString b)
  | VNum n => Normal (number_toString n)
  | VStr s => Normal s
  | VArr items =>
      try* printed :=
        (fix elems (l : list value) : Completion (list string) :=
           match l with
           | [] => Normal []
           | x :: rest =>
               try* s :=
                 match x with
                 | VUndefined | VNull => Normal EmptyString
                 | _ => ToString x
                 end in
               try* more := elems rest in
               Normal (s :: more)
           end) items in
      Normal (String.concat "," printed)
  | VObj members =>
      if has_own "toString" members then Throw TypeError
      else Normal "[object Object]"
  end.

(** [v?.toString()]: [None] stands for [undefined]. *)
Definition opt_toString (v : value) : Completion (option string) :=
  match v with
  | VUndefined | VNull => Normal None
  | _ => try* s := ToString v in Normal (Some s)
  end.

(** [v?.toString() || ''] *)
Definition toString_or_empty (v : value) : Completion string :=
  try* s := opt_toString v in Normal (default EmptyString s).

(** *** JSON.stringify *)

Definition hex_digit (n : N) : ascii :=
  ascii_of_N (if (n <? 10)%N then 48 + n else 87 + n)%N.

(** One character of a JSON string literal. *)
Definition json_escape (c : ascii) : string :=
  let n := N_of_ascii c in
  if (n =? 34)%N then String "092" (String "034" EmptyString)
  else if (n =? 92)%N then String "092" (String "092" EmptyString)
  else if (n =? 8)%N then String "092" "b"
  else if (n =? 9)%N then String "092" "t"
  else if (n =? 10)%N then String "092" "n"
  else if (n =? 12)%N then String "092" "f"
  else if (n =? 13)%N then String "092" "r"
  else if (n <? 32)%N then
    String "092" ("u00" +:+ String (hex_digit (n / 16)) (String (hex_digit (n mod 16)) EmptyString))
  else String c EmptyString.

Fixpoint json_escape_all (s : string) : string :=
  match s with
  | EmptyString => EmptyString
  | String c rest => json_escape c +:+ json_escape_all rest
  end.

Definition json_quote (s : string) : string :=
  String "034" (json_escape_all s +:+ String "034" EmptyString).

(** [JSON.stringify(v)]: [None] stands for the [undefined] it returns
    on [undefined].  Inside an array [undefined] prints as [null];
    inside an object a member holding [undefined] is left out. *)
Fixpoint JSON_stringify (v : value) : option string :=
  match v with
  | VUndefined => None
  | VNull => Some "null"
  | VBool b => Some (bool_toString b)
  | VNum n => Some (if number_finite n then number_toString n else "null")
  | VStr s => Some (json_quote s)
  | VArr items =>
      Some ("[" +:+
        String.concat ","
          ((fix elems (l : list value) : list string :=
              match l with
              | [] => []
              | x :: rest => default "null" (JSON_stringify x) :: elems rest
              end) items) +:+ "]")
  | VObj members =>
      Some ("{" +:+
        String.concat ","
          ((fix fields (l : list (string * value)) : list string :=
              match l with
              | [] => []
              | (k, x) :: rest =>
                  match JSON_stringify x with
                  | None => fields rest
                  | Some s => (json_quote k +:+ ":" +:+ s) :: fields rest
                  end
              end) members) +:+ "}")
  end.

(** *** Plain objects *)

(** The own member of that name, [undefined] when there is none. *)
Fixpoint member (key : string) (o : list (string * value)) : value :=
  match o with
  | [] => VUndefined
  | (k, v) :: rest => if String.eqb k key then v else member key rest
  end.

(** [Object.keys(obj)] *)
Definition Object_keys (o : list (string * value)) : list string :=
  map fst o.

(** [{ ...a, ...b }]: the members of [b] win over those of [a]. *)
Definition spread {V : Type} (a b : gmap string V) : gmap string V := b ∪ a.

(** The methods every plain object inherits from [Object.prototype];
    beside them it inherits the accessor [__proto__]. *)
Definition Object_prototype_functions : list string :=
  ["constructor"; "__defineGetter__"; "__defineSetter__"; "hasOwnProperty";
   "__lookupGetter__"; "__lookupSetter__"; "isPrototypeOf";
   "propertyIsEnumerable"; "toString"; "valueOf"; "toLocaleString"].

Definition inherited_function (key : string) : bool :=
  existsb (String.eqb key) Object_prototype_functions.

(** What [obj[key]] finds on a plain object for a computed key. *)
Inductive Property : Type :=
  | OwnProperty (v : value)
  | PrototypeObject
  | InheritedFunction
  | NoProperty.

Definition Get (o : list (string * value)) (key : string) : Property :=
  if has_own key o then OwnProperty (member key o)
  else if String.eqb key "__proto__" then PrototypeObject
  else if inherited_function key then InheritedFunction
  else NoProperty.

End Values.

Arguments value number : clear implicits.
Arguments Property number : clear implicits.

(** ** The data model *)

Section DataModel.
Context {number : Type} `{JSNumber number}.

(** The incoming event ([PluginEvent] of the plugin scaffold): the
    fields the plugin reads, and [extra] for any further own property
    of the object. *)
Record PluginEvent : Type := {
  distinct_id : string;
  ip : option string;
  site_url : string;
  team_id : number;
  now : string;
  event : string;
  sent_at : option string;
  properties : option (list (string * value number));
  timestamp : option string;
  offset : option number;
  uuid : option string;
  extra : list (string * value number)
}.

Definition optional_member {A : Type} (key : string) (inj : A -> value number)
    (o : option A) : list (string * value number) :=
  match o with
  | Some a => [(key, inj a)]
  | None => []
  end.

(** The event seen as a plain object: what [event[key]] reads. *)
Definition PluginEvent_members (e : PluginEvent) : list (string * value number) :=
  [("distinct_id", VStr (distinct_id e));
   ("ip", match ip e with Some a => VStr a | None => VNull end);
   ("site_url", VStr (site_url e));
   ("team_id", VNum (team_id e));
   ("now", VStr (now e));
   ("event", VStr (event e))]
  ++ optional_member "sent_at" VStr (sent_at e)
  ++ optional_member "properties" VObj (properties e)
  ++ optional_member "timestamp" VStr (timestamp e)
  ++ optional_member "offset" VNum (offset e)
  ++ optional_member "uuid" VStr (uuid e)
  ++ extra e.

(** [event.properties?.key] *)
Definition prop (e : PluginEvent) (key : string) : value number :=
  match properties e with
  | Some o => member key o
  | None => VUndefined
  end.

(** The Pinpoint [Event] record. *)
Record Event : Type := {
  AppPackageName : string;
  AppTitle : string;
  AppVersionCode : string;
  Attributes : gmap string (option string);
  ClientSdkVersion : value number;
  EventType : string;
  Metrics : gmap string (value number);
  SdkName : value number;
  Timestamp : option string
}.

Record EndpointDemographic : Type := {
  AppVersion : value number;
  Locale : value number;
  Make : value number;
  Model : value number;
  Platform : value number;
  PlatformVersion : value number;
  Timezone : value number
}.

Record EndpointLocation : Type := {
  City : value number;
  Country : value number;
  Latitude : value number;
  Longitude : value number;
  PostalCode : value number;
  Region : value number
}.

Record EndpointUser : Type := { UserId : value number }.

Record EndpointRecord : Type := {
  Address : string;
  EndpointAttributes : gmap string (value number);
  ChannelType : value number;
  Demographic : EndpointDemographic;
  EffectiveDate : option string;
  Location : EndpointLocation;
  EndpointMetrics : gmap string (value number);
  RequestId : option string;
  User : EndpointUser
}.

(** [let endpoint = {}], replaced by a filled record when the event
    has a device id. *)
Inductive PublicEndpoint : Type :=
  | EmptyEndpoint
  | FilledEndpoint (r : EndpointRecord).

(** What the event mapping of a batch item holds under a key: the
    record of an event, or -- after the record of an event was spread
    into the mapping -- one field of such a record, under the name of
    the field. *)
Inductive EventEntry : Type :=
  | EntryEvent (r : Event)
  | EntryField (name : string) (r : Event).

Definition Event_fields : list string :=
  ["AppPackageName"; "AppTitle"; "AppVersionCode"; "Attributes";
   "ClientSdkVersion"; "EventType"; "Metrics"; "SdkName"; "Timestamp"].

(** [{ ...r }] for the record of an event *)
Definition spread_record (r : Event) : gmap string EventEntry :=
  list_to_map ((fun name => (name, EntryField name r)) <$> Event_fields).

Record EventsBatch : Type := {
  Endpoint : PublicEndpoint;
  Events : gmap string EventEntry
}.

(** The plain object that the dispatcher uses as its dictionary of
    batch items: its own members, and the batch item installed as its
    prototype by an assignment to [__proto__] ([None] while the
    prototype is [Object.prototype]). *)
Record BatchObject : Type := {
  own : gmap string EventsBatch;
  prototype : option EventsBatch
}.

(** [{}] *)
Definition empty_object : BatchObject := {| own := ∅; prototype := None |}.

(** What [batchEvents[key]] finds. *)
Inductive Found : Type :=
  | FoundUndefined
  | FoundItem (item : EventsBatch)
  | FoundObjectPrototype
  | FoundFunction
  | FoundEndpoint (endpoint : PublicEndpoint)
  | FoundEvents (events : gmap string EventEntry).

(** [batchEvents[key]]: an own member; else, for [__proto__], the
    prototype; else what the prototype chain holds under the name --
    the two members of a batch item installed as prototype, then the
    methods of [Object.prototype]. *)
Definition object_get (o : BatchObject) (key : string) : Found :=
  match own o !! key with
  | Some item => FoundItem item
  | None =>
      if String.eqb key "__proto__" then
        match prototype o with
        | Some item => FoundItem item
        | None => FoundObjectPrototype
        end
      else
        match prototype o with
        | Some item =>
            if String.eqb key "Endpoint" then FoundEndpoint (Endpoint item)
            else if String.eqb key "Events" then FoundEvents (Events item)
            else if inherited_function key then FoundFunction
            else FoundUndefined
        | None => if inherited_function key then FoundFunction else FoundUndefined
        end
  end.

(** [batchEvents[key] = item]: the accessor [__proto__] installs the
    item as prototype and adds no own member, unless the object has an
    own member of that name (which no assignment creates); any other
    key adds or replaces an own member. *)
Definition object_set (o : BatchObject) (key : string) (item : EventsBatch)
    : BatchObject :=
  if String.eqb key "__proto__" && negb (bool_decide (is_Some (own o !! key)))
  then {| own := own o; prototype := Some item |}
  else {| own := <[ key := item ]> (own o); prototype := prototype o |}.

(** [if (found)] *)
Definition found_truthy (found : Found) : bool :=
  match found with
  | FoundUndefined => false
  | _ => true
  end.

(** [{ ...found.Events }]: what spreading the [Events] member of the
    found value adds.  Reading a member of [undefined] throws a
    [TypeError]; a found object without such a member gives
    [undefined], which spreads to nothing.  The event mapping of a
    prototype, found under the name [Events], has such a member when an
    event is keyed [Events], and that record spreads to its fields (a
    field is stored under its own name only, never under [Events]). *)
Definition Events_of (found : Found) : Completion (gmap string EventEntry) :=
  match found with
  | FoundUndefined => Throw TypeError
  | FoundItem item => Normal (Events item)
  | FoundObjectPrototype | FoundFunction | FoundEndpoint _ => Normal ∅
  | FoundEvents events =>
      match events !! "Events" with
      | Some (EntryEvent r) => Normal (spread_record r)
      | _ => Normal ∅
      end
  end.

(** The request handed to the Pinpoint client. *)
Record Command : Type := {
  ApplicationId : option string;
  BatchItem : BatchObject
}.

(** What the client hands to the callback of [putEvents]. *)
Record Reply : Type := {
  reply_err : option string;
  reply_data : value number
}.

(** Console output; each constructor is one template string of the
    source, holding the values interpolated into it. *)
Inductive LogLine : Type :=
  | info_Buffer_flushed (events : list PluginEvent)
  | info_Event (e : PluginEvent)
  | error_Error_sending (message : string) (command : Command)
  | info_Uploaded (count : nat) (applicationId : option string)
  | info_Response (data : value number).

(** ** Effects *)

(** Everything outside the plugin that a run reads or writes.
    [random_draws n] is the value of the [n]-th evaluation of
    [Math.floor(Math.random() * 1000000)], [random_uuids n] of the
    [n]-th [randomUUID()], [clock n] of the [n]-th
    [new Date().getTime()]; [pinpoint n c] is the reply of the client
    to command [c] when [n] commands were submitted before it. *)
Record World : Type := {
  random_draws : nat -> Z;
  random_uuids : nat -> string;
  clock : nat -> Z;
  pinpoint : nat -> Command -> Reply;
  draws_taken : nat;
  uuids_taken : nat;
  clock_reads : nat;
  console : list LogLine;
  submitted : list Command
}.

Definition M (A : Type) : Type := World -> Completion A * World.

Definition ret {A : Type} (a : A) : M A := fun w => (Normal a, w).

Definition bind {A B : Type} (m : M A) (f : A -> M B) : M B :=
  fun w =>
    match m w with
    | (Normal a, w') => f a w'
    | (Throw e, w') => (Throw e, w')
    end.

Definition throw {A : Type} (e : Error) : M A := fun w => (Throw e, w).

(** [Math.floor(Math.random() * 1000000)] *)
Definition Math_random_floor : M Z :=
  fun w =>
    (Normal (random_draws w (draws_taken w)),
     {| random_draws := random_draws w; random_uuids := random_uuids w;
        clock := clock w; pinpoint := pinpoint w;
        draws_taken := S (draws_taken w); uuids_taken := uuids_taken w;
        clock_reads := clock_reads w; console := console w;
        submitted := submitted w |}).

(** [randomUUID()] *)
Definition randomUUID : M string :=
  fun w =>
    (Normal (random_uuids w (uuids_taken w)),
     {| random_draws := random_draws w; random_uuids := random_uuids w;
        clock := clock w; pinpoint := pinpoint w;
        draws_taken := draws_taken w; uuids_taken := S (uuids_taken w);
        clock_reads := clock_reads w; console := console w;
        submitted := submitted w |}).

(** [new Date().getTime()] *)
Definition Date_getTime : M Z :=
  fun w =>
    (Normal (clock w (clock_reads w)),
     {| random_draws := random_draws w; random_uuids := random_uuids w;
        clock := clock w; pinpoint := pinpoint w;
        draws_taken := draws_taken w; uuids_taken := uuids_taken w;
        clock_reads := S (clock_reads w); console := console w;
        submitted := submitted w |}).

(** [console.info] and [console.error] *)
Definition log (line : LogLine) : M unit :=
  fun w =>
    (Normal tt,
     {| random_draws := random_draws w; random_uuids := random_uuids w;
        clock := clock w; pinpoint := pinpoint w;
        draws_taken := draws_taken w; uuids_taken := uuids_taken w;
        clock_reads := clock_reads w; console := console w ++ [line];
        submitted := submitted w |}).

(** Handing a command to the client; the reply is what its callback
    (or promise) will carry. *)
Definition submit (command : Command) : M Reply :=
  fun w =>
    (Normal (pinpoint w (length (submitted w)) command),
     {| random_draws := random_draws w; random_uuids := random_uuids w;
        clock := clock w; pinpoint := pinpoint w;
        draws_taken := draws_taken w; uuids_taken := uuids_taken w;
        clock_reads := clock_reads w; console := console w;
        submitted := submitted w ++ [command] |}).

(** [array.reduce(f, init)] with an effectful callback. *)
Fixpoint reduce {A B : Type} (f : B -> A -> M B) (l : list A) (init : B) : M B :=
  match l with
  | [] => ret init
  | x :: rest => bind (f init x) (fun acc => reduce f rest acc)
  end.

(** An evaluation without effects, inside one with effects. *)
Definition lift {A : Type} (c : Completion A) : M A := fun w => (c, w).

End DataModel.

Arguments PluginEvent number : clear implicits.
Arguments Event number : clear implicits.
Arguments EventEntry number : clear implicits.
Arguments EndpointRecord number : clear implicits.
Arguments PublicEndpoint number : clear implicits.
Arguments EventsBatch number : clear implicits.
Arguments BatchObject number : clear implicits.
Arguments Found number : clear implicits.
Arguments Command number : clear implicits.
Arguments Reply number : clear implicits.
Arguments LogLine number : clear implicits.
Arguments World number : clear implicits.
Arguments M number A : clear implicits.

Notation "'let*' x ':=' m 'in' k" := (bind m (fun x => k))
  (at level 10, x pattern, m at level 100, k at level 200).

(** An [async] function returns a promise: nothing is thrown at the
    caller, and what the body throws settles the promise as rejected.
    The promise is given by its settlement, [Normal] for fulfilled and
    [Throw] for rejected. *)
Definition async {number A : Type} (body : M number A) : M number (Completion A) :=
  fun w => let (c, w') := body w in (Normal c, w').

(** ** Configuration *)

(** White space that [parseInt] skips (the ASCII part of it). *)
Definition is_whitespace (c : ascii) : bool :=
  let n := N_of_ascii c in
  ((n =? 9) || (n =? 10) || (n =? 11) || (n =? 12) || (n =? 13) || (n =? 32))%N.

Fixpoint trim_start (s : string) : string :=
  match s with
  | String c rest => if is_whitespace c then trim_start rest else s
  | EmptyString => s
  end.

Definition digit_value (c : ascii) : option Z :=
  let n := Z.of_N (N_of_ascii c) in
  if (48 <=? n) && (n <=? 57) then Some (n - 48)
  else if (97 <=? n) && (n <=? 122) then Some (n - 87)
  else if (65 <=? n) && (n <=? 90) then Some (n - 55)
  else None.

(** The longest prefix of digits of the radix, read as a number;
    [acc] is [None] until a digit was seen. *)
Fixpoint parse_digits (radix : Z) (s : string) (acc : option Z) : option Z :=
  match s with
  | String c rest =>
      match digit_value c with
      | Some d =>
          if d <? radix then parse_digits radix rest (Some (default 0 acc * radix + d))
          else acc
      | None => acc
      end
  | EmptyString => acc
  end.

(** [parseInt(s)] without a radix; [None] stands for [NaN].  The
    source gets the double nearest to the integer read here, and an
    infinity beyond the range of doubles. *)
Definition parseInt (s : string) : option Z :=
  let s := trim_start s in
  let '(sign, s) :=
    match s with
    | String "-" rest => (-1, rest)
    | String "+" rest => (1, rest)
    | _ => (1, s)
    end in
  let '(radix, s) :=
    match s with
    | String "0" (String "x" rest) => (16, rest)
    | String "0" (String "X" rest) => (16, rest)
    | _ => (10, s)
    end in
  option_map (Z.mul sign) (parse_digits radix s None).

(** [parseInt(v)] on a configuration entry that may be missing:
    [undefined] is first turned into the string [undefined]. *)
Definition parseInt_config (v : option string) : option Z :=
  parseInt (default "undefined" v).

(** [n || d] on the outcome of [parseInt] *)
Definition number_or (n : option Z) (d : Z) : Z :=
  match n with
  | Some z => if z =? 0 then d else z
  | None => d
  end.

(** [!v] on a configuration entry *)
Definition config_missing (v : option string) : bool :=
  match v with
  | Some s => negb (string_truthy s)
  | None => true
  end.

(** *** The list of events to ignore *)

(** [s.split(',')]: the pieces between the commas, at least one. *)
Fixpoint split_comma (s : string) : list string :=
  match s with
  | EmptyString => [EmptyString]
  | String c rest =>
      if Ascii.eqb c "," then EmptyString :: split_comma rest
      else
        match split_comma rest with
        | piece :: pieces => String c piece :: pieces
        | [] => [String c EmptyString]
        end
  end.

Fixpoint trim_end (s : string) : string :=
  match s with
  | EmptyString => EmptyString
  | String c rest =>
      match trim_end rest with
      | EmptyString => if is_whitespace c then EmptyString else String c EmptyString
      | kept => String c kept
      end
  end.

(** [s.trim()] (for the ASCII white space) *)
Definition trim (s : string) : string := trim_end (trim_start s).

(** [new Set(configured ? configured.split(',').map((event) => event.trim()) : null)] *)
Definition ignore_set (configured : option string) : gset string :=
  match configured with
  | Some s => if string_truthy s then list_to_set (trim <$> split_comma s) else ∅
  | None => ∅
  end.

(** The options given to [createBuffer], without the callback. *)
Record BufferOptions : Type := {
  limit : Z;
  timeoutSeconds : Z
}.

(** ** The second variant of the plugin: immediate dispatch *)

Module Part0.

Record Config : Type := {
  awsAccessKey : option string;
  awsSecretAccessKey : option string;
  awsRegion : option string;
  applicationId : option string;
  uploadSeconds : option string;
  uploadKilobytes : option string;
  eventsToIgnore : option string;
  maxAttempts : option string
}.

Definition computed_uploadKilobytes (config : Config) : Z :=
  Z.max 1 (Z.min (number_or (parseInt_config (uploadKilobytes config)) 1) 100).

Definition computed_uploadSeconds (config : Config) : Z :=
  Z.max 1 (Z.min (number_or (parseInt_config (uploadSeconds config)) 1) 60).

(** [setupPlugin], up to the options of the buffer it creates. *)
Definition setupPlugin (config : Config) : Completion BufferOptions :=
  if config_missing (awsAccessKey config) then
    Throw (ConfigError "AWS access key missing!")
  else if config_missing (awsSecretAccessKey config) then
    Throw (ConfigError "AWS secret access key missing!")
  else if config_missing (awsRegion config) then
    Throw (ConfigError "AWS region missing!")
  else if config_missing (applicationId config) then
    Throw (ConfigError "ApplicationId missing!")
  else
    Normal {| limit := computed_uploadKilobytes config * 1024 * 1024;
              timeoutSeconds := computed_uploadSeconds config |}.

(** [global.eventsToIgnore], as [setupPlugin] leaves it. *)
Definition global_eventsToIgnore (config : Config) : gset string :=
  ignore_set (eventsToIgnore config).

Section Plugin.
Context {number : Type} `{JSNumber number}.

Definition optional_string (o : option string) : value number :=
  match o with
  | Some s => VStr s
  | None => VUndefined
  end.

(** [a?.toString() || b?.toString()] *)
Definition toString_or_toString (a b : value number) : Completion (value number) :=
  try* printed := opt_toString a in
  if from_option string_truthy false printed then Normal (optional_string printed)
  else try* other := opt_toString b in Normal (optional_string other).

(** [getEndpoint]; the calls of [toString] are made in the order of
    the source, and the first that throws ends the evaluation. *)
Definition getEndpoint (event : PluginEvent number) : Completion (PublicEndpoint number) :=
  if truthy (prop event "$device_id") then
    try* screen_density := toString_or_empty (prop event "$screen_density") in
    try* screen_height := toString_or_empty (prop event "$screen_height") in
    try* screen_name := toString_or_empty (prop event "$screen_name") in
    try* screen_width := toString_or_empty (prop event "$screen_width") in
    try* viewport_height := toString_or_empty (prop event "$viewport_height") in
    try* viewport_width := toString_or_empty (prop event "$viewport_width") in
    try* platformVersion :=
      toString_or_toString (prop event "$os_version") (prop event "$browser_version") in
    Normal (FilledEndpoint {|
      Address := site_url event;
      EndpointAttributes := list_to_map [
        ("screen_density", VArr [VStr screen_density]);
        ("screen_height", VArr [VStr screen_height]);
        ("screen_name", VArr [VStr screen_name]);
        ("screen_width", VArr [VStr screen_width]);
        ("viewport_height", VArr [VStr viewport_height]);
        ("viewport_width", VArr [VStr viewport_width])];
      ChannelType := prop event "$lib";
      Demographic := {|
        AppVersion := prop event "$app_version";
        Locale := prop event "$locale";
        Make := js_or (prop event "$device_manufacturer") (prop event "$device_type");
        Model := js_or (prop event "$device_model") (prop event "$os");
        Platform := js_or (prop event "$os_name") (prop event "$browser");
        PlatformVersion := platformVersion;
        Timezone := prop event "$geoip_time_zone" |};
      EffectiveDate := timestamp event;
      Location := {|
        City := prop event "$geoip_city_name";
        Country := prop event "$geoip_country_name";
        Latitude := prop event "$geoip_latitude";
        Longitude := prop event "$geoip_longitude";
        PostalCode := prop event "$geoip_postal_code";
        Region := prop event "$geoip_subdivision_1_code" |};
      EndpointMetrics := ∅;
      RequestId := uuid event;
      User := {| UserId := prop event "$user_id" |} |})
  else Normal EmptyEndpoint.

(** [getAttribute(properties, key)].  The declared result is a string;
    [None] is the [undefined] that [JSON.stringify] returns on
    [undefined] and on a function.  For the key [__proto__] of an
    object without such a member the value is [Object.prototype],
    whose JSON text is an empty object. *)
Definition getAttribute (properties : option (list (string * value number)))
    (key : string) : option string :=
  match Get (default [] properties) key with
  | OwnProperty value =>
      match value with
      | VNum n => Some (number_toString n)
      | VBool b => Some (bool_toString b)
      | VStr s => Some s
      | _ => JSON_stringify value
      end
  | PrototypeObject => Some "{}"
  | InheritedFunction => None
  | NoProperty => None
  end.

(** The [Attributes] of an event: the inner [reduce] of [getEvents].
    The call site hands the event itself to [getAttribute]. *)
Definition attributes_of (event : PluginEvent number) : gmap string (option string) :=
  fold_left
    (fun attributes key =>
       spread {[ key := getAttribute (Some (PluginEvent_members event)) key ]} attributes)
    (Object_keys (default [] (properties event))) ∅.

(** One iteration of the [reduce] of [getEvents]: the accumulator is
    replaced, not extended. *)
Definition getEvents_step (pinpointEvents : gmap string (Event number))
    (e : PluginEvent number) : M number (gmap string (Event number)) :=
  let* _ := log (info_Event e) in
  let* eventKey :=
    match uuid e with
    | Some u => ret u
    | None => randomUUID
    end in
  let* stamp :=
    match timestamp e with
    | Some t =>
        if string_truthy t then ret t
        else let* ms := Date_getTime in ret (pretty ms)
    | None => let* ms := Date_getTime in ret (pretty ms)
    end in
  let pinpointEvent := {|
    AppPackageName := "string;";
    AppTitle := "string;";
    AppVersionCode := "string;";
    Attributes := attributes_of e;
    ClientSdkVersion := prop e "$lib_version";
    EventType := event e;
    Metrics := ∅;
    SdkName := prop e "$lib";
    Timestamp := Some stamp |} in
  ret {[ eventKey := pinpointEvent ]}.

Definition getEvents (events : list (PluginEvent number))
    : M number (gmap string (Event number)) :=
  reduce getEvents_step events ∅.

(** [e.properties?.$device_id || Math.floor(Math.random() * 1000000).toString()] *)
Definition batchKey_of (e : PluginEvent number) : M number (value number) :=
  let device := prop e "$device_id" in
  if truthy device then ret device
  else let* n := Math_random_floor in ret (VStr (pretty n)).

(** One iteration of the [reduce] of [sendToPinpoint].  The batch key
    is converted to a property key where it is first used as one. *)
Definition sendToPinpoint_step (batchEvents : BatchObject number)
    (e : PluginEvent number) : M number (BatchObject number) :=
  let* batchKey := batchKey_of e in
  let* pinpointEvents := getEvents [e] in
  let* pinpointEndpoint := lift (getEndpoint e) in
  let* key := lift (ToString batchKey) in
  let* pinpointEvents :=
    if found_truthy (object_get batchEvents key) then
      let* earlier := lift (Events_of (object_get batchEvents key)) in
      ret (spread (EntryEvent <$> pinpointEvents) earlier)
    else ret (EntryEvent <$> pinpointEvents) in
  ret (object_set batchEvents key
         {| Endpoint := pinpointEndpoint; Events := pinpointEvents |}).

(** The [BatchItem] mapping of the command. *)
Definition batchItems (events : list (PluginEvent number))
    : M number (BatchObject number) :=
  reduce sendToPinpoint_step events empty_object.

(** The callback given to [putEvents].  The two [info] lines follow
    the error line also when the submission failed. *)
Definition putEvents_callback (events : list (PluginEvent number)) (config : Config)
    (command : Command number) (reply : Reply number) : M number unit :=
  let* _ :=
    match reply_err reply with
    | Some message => log (error_Error_sending message command)
    | None => ret tt
    end in
  let* _ := log (info_Uploaded (length events) (applicationId config)) in
  log (info_Response (reply_data reply)).

Definition sendToPinpoint_body (events : list (PluginEvent number)) (config : Config)
    : M number unit :=
  let* items := batchItems events in
  let command := {| ApplicationId := applicationId config; BatchItem := items |} in
  let* reply := submit command in
  putEvents_callback events config command reply.

Definition sendToPinpoint (events : list (PluginEvent number)) (config : Config)
    : M number (Completion unit) :=
  async (sendToPinpoint_body events config).

(** The [onFlush] callback of the buffer; the promise of
    [sendToPinpoint] is dropped.  The template string of the log line
    converts the array of events to a string first. *)
Definition onFlush (events : list (PluginEvent number)) (config : Config)
    : M number (Completion unit) :=
  async (
    let* _ := lift (ToString (VArr ((fun e => VObj (PluginEvent_members e)) <$> events))) in
    let* _ := log (info_Buffer_flushed events) in
    if (0 <? length events)%nat then
      let* _ := sendToPinpoint events config in ret tt
    else ret tt).

(** [onEvent]: an event that is not ignored is dispatched at once, on
    its own; the promise of [sendToPinpoint] is dropped. *)
Definition onEvent (ignored : gset string) (e : PluginEvent number) (config : Config)
    : M number unit :=
  if negb (bool_decide (event e ∈ ignored)) then
    let* _ := sendToPinpoint [e] config in ret tt
  else ret tt.

(** [onSnapshot]: the same, with the test written twice. *)
Definition onSnapshot (ignored : gset string) (e : PluginEvent number) (config : Config)
    : M number (Completion unit) :=
  async (
    if negb (bool_decide (event e ∈ ignored)) then
      if negb (bool_decide (event e ∈ ignored)) then
        let* _ := sendToPinpoint [e] config in ret tt
      else ret tt
    else ret tt).

End Plugin.
End Part0.

(** ** [src/index.ts]: buffered dispatch *)

Module Index.

Record Config : Type := {
  awsAccessKey : option string;
  awsSecretAccessKey : option string;
  awsRegion : option string;
  applicationId : option string;
  uploadSeconds : option string;
  uploadMegabytes : option string;
  eventsToIgnore : option string;
  maxAttempts : option Z
}.

Definition computed_uploadMegabytes (config : Config) : Z :=
  Z.max 1 (Z.min (number_or (parseInt_config (uploadMegabytes config)) 1) 100).

Definition computed_uploadSeconds (config : Config) : Z :=
  Z.max 1 (Z.min (number_or (parseInt_config (uploadSeconds config)) 1) 60).

(** [setupPlugin], up to the options of the buffer it creates. *)
Definition setupPlugin (config : Config) : Completion BufferOptions :=
  if config_missing (awsAccessKey config) then
    Throw (ConfigError "AWS access key missing!")
  else if config_missing (awsSecretAccessKey config) then
    Throw (ConfigError "AWS secret access key missing!")
  else if config_missing (awsRegion config) then
    Throw (ConfigError "AWS region missing!")
  else if config_missing (applicationId config) then
    Throw (ConfigError "ApplicationId missing!")
  else
    Normal {| limit := computed_uploadMegabytes config * 1024 * 1024;
              timeoutSeconds := computed_uploadSeconds config |}.

(** [global.eventsToIgnore], as [setupPlugin] leaves it. *)
Definition global_eventsToIgnore (config : Config) : gset string :=
  ignore_set (eventsToIgnore config).

Section Plugin.
Context {number : Type} `{JSNumber number}.

Definition fillEndpoint (event : PluginEvent number) : PublicEndpoint number :=
  if truthy (prop event "$device_id") then
    FilledEndpoint {|
      Address := site_url event;
      EndpointAttributes := list_to_map [
        ("screen_density", prop event "$screen_density");
        ("screen_height", prop event "$screen_height");
        ("screen_name", prop event "$screen_name");
        ("screen_width", prop event "$screen_width");
        ("viewport_height", prop event "$viewport_height");
        ("viewport_width", prop event "$viewport_width")];
      ChannelType := prop event "$lib";
      Demographic := {|
        AppVersion := prop event "$app_version";
        Locale := prop event "$locale";
        Make := js_or (prop event "$device_manufacturer") (prop event "$device_type");
        Model := js_or (prop event "$device_model") (prop event "$os");
        Platform := js_or (prop event "$os_name") (prop event "$browser");
        PlatformVersion := js_or (prop event "$os_version") (prop event "$browser_version");
        Timezone := prop event "$geoip_time_zone" |};
      EffectiveDate := timestamp event;
      Location := {|
        City := prop event "$geoip_city_name";
        Country := prop event "$geoip_country_name";
        Latitude := prop event "$geoip_latitude";
        Longitude := prop event "$geoip_longitude";
        PostalCode := prop event "$geoip_postal_code";
        Region := prop event "$geoip_subdivision_1_code" |};
      EndpointMetrics := ∅;
      RequestId := uuid event;
      User := {| UserId := prop event "$user_id" |} |}
  else EmptyEndpoint.

(** The [Attributes] of an event: the inner [reduce] of [fillEvents]. *)
Definition attributes_of (e : PluginEvent number) : gmap string (option string) :=
  fold_left
    (fun attributes key =>
       spread {[ key := JSON_stringify (member key (default [] (properties e))) ]} attributes)
    (Object_keys (default [] (properties e))) ∅.

(** One iteration of the [reduce] of [fillEvents]: the accumulator is
    replaced, not extended. *)
Definition fillEvents_step (pinpointEvents : gmap string (Event number))
    (e : PluginEvent number) : gmap string (Event number) :=
  {[ distinct_id e := {|
       AppPackageName := "string;";
       AppTitle := "string;";
       AppVersionCode := "string;";
       Attributes := attributes_of e;
       ClientSdkVersion := prop e "$lib_version";
       EventType := event e;
       Metrics := list_to_map [
         ("screen_density", prop e "$screen_density");
         ("screen_height", prop e "$screen_height");
         ("screen_name", prop e "$screen_name");
         ("screen_width", prop e "$screen_width");
         ("viewport_height", prop e "$viewport_height");
         ("viewport_width", prop e "$viewport_width")];
       SdkName := prop e "$lib";
       Timestamp := timestamp e |} ]}.

Definition fillEvents (events : list (PluginEvent number)) : gmap string (Event number) :=
  fold_left fillEvents_step events ∅.

(** [e.properties?.$device_id || Math.floor(Math.random() * 1000000).toString()] *)
Definition batchKey_of (e : PluginEvent number) : M number (value number) :=
  let device := prop e "$device_id" in
  if truthy device then ret device
  else let* n := Math_random_floor in ret (VStr (pretty n)).

(** One iteration of the [reduce] of [sendToPinpoint]: [.Events] is
    read off what the lookup finds, without a test. *)
Definition sendToPinpoint_step (batchEvents : BatchObject number)
    (e : PluginEvent number) : M number (BatchObject number) :=
  let* batchKey := batchKey_of e in
  let* key := lift (ToString batchKey) in
  let endpoint := fillEndpoint e in
  let events := fillEvents [e] in
  let* earlier := lift (Events_of (object_get batchEvents key)) in
  ret (object_set batchEvents key
         {| Endpoint := endpoint; Events := spread (EntryEvent <$> events) earlier |}).

(** The [BatchItem] mapping of the command. *)
Definition batchItems (events : list (PluginEvent number))
    : M number (BatchObject number) :=
  reduce sendToPinpoint_step events empty_object.

(** [sendToPinpoint]: the promise of [send] is dropped. *)
Definition sendToPinpoint (events : list (PluginEvent number)) (config : Config)
    : M number unit :=
  let* items := batchItems events in
  let command := {| ApplicationId := applicationId config; BatchItem := items |} in
  let* _ := submit command in
  ret tt.

(** The [onFlush] callback of the buffer. *)
Definition onFlush (events : list (PluginEvent number)) (config : Config)
    : M number (Completion unit) :=
  async (sendToPinpoint events config).

End Plugin.
End Index.

(** ** The buffer *)


(** ** The run of the dispatcher, iteration by iteration *)

Section Runs.
Context {number : Type} `{JSNumber number}.
Implicit Types (e : PluginEvent number) (w : World number).

(** The batch key of an event when its iteration starts in [w]: the
    device id, or the next random draw. *)
Definition batchKeyValue_at e w : value number :=
  if truthy (prop e "$device_id") then prop e "$device_id"
  else VStr (pretty (random_draws w (draws_taken w))).

(** The event key of the second variant: the uuid, or the next
    generated id. *)
Definition eventKey_at e w : string :=
  match uuid e with
  | Some u => u
  | None => random_uuids w (uuids_taken w)
  end.

(** The timestamp: that of the event, or the next reading of the clock. *)
Definition stamp_at e w : string :=
  match timestamp e with
  | Some t => if string_truthy t then t else pretty (clock w (clock_reads w))
  | None => pretty (clock w (clock_reads w))
  end.

(** The normalised record of an event in the second variant. *)
Definition pinpointEvent_at e w : Event number := {|
  AppPackageName := "string;";
  AppTitle := "string;";
  AppVersionCode := "string;";
  Attributes := Part0.attributes_of e;
  ClientSdkVersion := prop e "$lib_version";
  EventType := event e;
  Metrics := ∅;
  SdkName := prop e "$lib";
  Timestamp := Some (stamp_at e w) |}.

(** The record of an event in [src/index.ts]. *)
Definition index_record e : Event number := {|
  AppPackageName := "string;";
  AppTitle := "string;";
  AppVersionCode := "string;";
  Attributes := Index.attributes_of e;
  ClientSdkVersion := prop e "$lib_version";
  EventType := event e;
  Metrics := list_to_map [
    ("screen_density", prop e "$screen_density");
    ("screen_height", prop e "$screen_height");
    ("screen_name", prop e "$screen_name");
    ("screen_width", prop e "$screen_width");
    ("viewport_height", prop e "$viewport_height");
    ("viewport_width", prop e "$viewport_width")];
  SdkName := prop e "$lib";
  Timestamp := timestamp e |}.

(** The world an iteration leaves behind, whether it throws or not:
    the draw of the batch key and the effects of [getEvents] come
    before anything that can throw. *)
Definition world_after e w : World number :=
  snd (Part0.getEvents [e] (snd (Part0.batchKey_of e w))).

Definition index_world_after e w : World number :=
  snd (Index.batchKey_of e w).

(** What one iteration of a dispatcher contributes. *)
Record Iteration : Type := {
  it_event : PluginEvent number;
  it_batchKey : string;
  it_endpoint : PublicEndpoint number;
  it_eventKey : string;
  it_record : Event number
}.

(** The contribution of an event in the second variant; it throws when
    the extraction of the endpoint or the conversion of the batch key
    does. *)
Definition iteration_at e w : Completion Iteration :=
  try* endpoint := Part0.getEndpoint e in
  try* key := ToString (batchKeyValue_at e w) in
  Normal {| it_event := e;
            it_batchKey := key;
            it_endpoint := endpoint;
            it_eventKey := eventKey_at e w;
            it_record := pinpointEvent_at e w |}.

(** The contribution of an event in [src/index.ts]. *)
Definition index_iteration_at e w : Completion Iteration :=
  try* key := ToString (batchKeyValue_at e w) in
  Normal {| it_event := e;
            it_batchKey := key;
            it_endpoint := Index.fillEndpoint e;
            it_eventKey := distinct_id e;
            it_record := index_record e |}.

Fixpoint iterations (es : list (PluginEvent number)) w : Completion (list Iteration) :=
  match es with
  | [] => Normal []
  | e :: rest =>
      try* it := iteration_at e w in
      try* its := iterations rest (world_after e w) in
      Normal (it :: its)
  end.

Fixpoint index_iterations (es : list (PluginEvent number)) w
    : Completion (list Iteration) :=
  match es with
  | [] => Normal []
  | e :: rest =>
      try* it := index_iteration_at e w in
      try* its := index_iterations rest (index_world_after e w) in
      Normal (it :: its)
  end.

Fixpoint world_after_all (es : list (PluginEvent number)) w : World number :=
  match es with
  | [] => w
  | e :: rest => world_after_all rest (world_after e w)
  end.

(** The event keys that the second variant gives the events of a run. *)
Fixpoint eventKeys (es : list (PluginEvent number)) w : list string :=
  match es with
  | [] => []
  | e :: rest => eventKey_at e w :: eventKeys rest (world_after e w)
  end.

(** The effect of an iteration on the dictionary of batch items. *)
Definition merge_iteration (batchEvents : BatchObject number) (it : Iteration)
    : BatchObject number :=
  object_set batchEvents (it_batchKey it) {|
    Endpoint := it_endpoint it;
    Events :=
      match Events_of (object_get batchEvents (it_batchKey it)) with
      | Normal earlier => spread {[ it_eventKey it := EntryEvent (it_record it) ]} earlier
      | Throw _ => {[ it_eventKey it := EntryEvent (it_record it) ]}
      end |}.

(** The same on the own members alone, for a dictionary whose
    prototype was never replaced. *)
Definition merge_own (items : gmap string (EventsBatch number)) (it : Iteration)
    : gmap string (EventsBatch number) :=
  <[ it_batchKey it := {|
       Endpoint := it_endpoint it;
       Events :=
         match items !! it_batchKey it with
         | Some earlier =>
             spread {[ it_eventKey it := EntryEvent (it_record it) ]} (Events earlier)
         | None => {[ it_eventKey it := EntryEvent (it_record it) ]}
         end |} ]> items.

(** The event mapping held for a batch key, empty when there is none. *)
Definition events_of (items : gmap string (EventsBatch number)) (k : string)
    : gmap string (EventEntry number) :=
  default ∅ (Events <$> items !! k).

(** [merged] is [earlier] with [entry] added under [key] unless the
    key was taken: no entry of [earlier] is lost or replaced. *)
Definition keeps_earlier (earlier merged : gmap string (EventEntry number))
    (key : string) (entry : EventEntry number) : Prop :=
  (forall k x, earlier !! k = Some x -> merged !! k = Some x)
  /\ (earlier !! key = None -> merged !! key = Some entry)
  /\ (forall k, k <> key -> merged !! k = earlier !! k).

(** An event that carries a device id, a uuid and a timestamp. *)
Definition identified e : bool :=
  truthy (prop e "$device_id")
  && bool_decide (is_Some (uuid e))
  && match timestamp e with Some t => string_truthy t | None => false end.

(** An event whose iteration in the second variant throws nothing:
    the endpoint is extracted and the device id, if any, converts to a
    property key. *)
Definition converts e : bool :=
  is_Normal (Part0.getEndpoint e) && is_Normal (ToString (prop e "$device_id")).

End Runs.

Arguments Iteration number : clear implicits.

(** ** What clamping means *)

(** [computed] is the configured entry read by [parseInt] and clamped
    to the range from 1 to [upper]: the value read when it lies in the
    range, 1 when nothing could be read or it lies below, [upper] when
    it lies above. *)
Definition clamped (configured : option string) (upper computed : Z) : Prop :=
  1 <= computed <= upper /\
  match parseInt_config configured with
  | None => computed = 1
  | Some n =>
      if n <? 1 then computed = 1
      else if upper <? n then computed = upper
      else computed = n
  end.

(** ** Sample inputs *)

Definition sample_world : World Z := {|
  random_draws := fun n => 424242 + Z.of_nat n;
  random_uuids := fun n => "generated-" +:+ pretty n;
  clock := fun n => 1700000000000 + Z.of_nat n;
  pinpoint := fun _ _ => {| reply_err := None; reply_data := VNull |};
  draws_taken := 0;
  uuids_taken := 0;
  clock_reads := 0;
  console := [];
  submitted := [] |}.

(** The same world at a later time. *)
Definition later_world : World Z := {|
  random_draws := fun n => 424242 + Z.of_nat n;
  random_uuids := fun n => "generated-" +:+ pretty n;
  clock := fun n => 1800000000000 + Z.of_nat n;
  pinpoint := fun _ _ => {| reply_err := None; reply_data := VNull |};
  draws_taken := 0;
  uuids_taken := 0;
  clock_reads := 0;
  console := [];
  submitted := [] |}.

Definition sample_event (name : string) (id : option string)
    (members : list (string * value Z)) : PluginEvent Z := {|
  distinct_id := "user-1";
  ip := None;
  site_url := "https://app.example";
  team_id := 2;
  now := "2021-05-01T10:00:00.000Z";
  event := name;
  sent_at := None;
  properties := Some members;
  timestamp := Some "2021-05-01T10:00:00.000Z";
  offset := None;
  uuid := id;
  extra := [] |}.

(** The two page views of the example: one device, different uuids. *)
Definition pageview_1 : PluginEvent Z :=
  sample_event "pageview" (Some "uuid-1")
    [("$device_id", VStr "d1"); ("$screen_width", VNum 1024)].

Definition pageview_2 : PluginEvent Z :=
  sample_event "pageview" (Some "uuid-2")
    [("$device_id", VStr "d1"); ("$screen_height", VNum 768)].


(** Two events of one device that carry the same uuid. *)
Definition first_delivery : PluginEvent Z :=
  sample_event "first" (Some "uuid-1") [("$device_id", VStr "d1")].

Definition second_delivery : PluginEvent Z :=
  sample_event "second" (Some "uuid-1") [("$device_id", VStr "d1")].

Definition sample_config : Part0.Config := {|
  Part0.awsAccessKey := Some "AKIA";
  Part0.awsSecretAccessKey := Some "secret";
  Part0.awsRegion := Some "us-east-1";
  Part0.applicationId := Some "app";
  Part0.uploadSeconds := Some "30";
  Part0.uploadKilobytes := Some "500";
  Part0.eventsToIgnore := None;
  Part0.maxAttempts := None |}.

Definition sample_index_config : Index.Config := {|
  Index.awsAccessKey := Some "AKIA";
  Index.awsSecretAccessKey := Some "secret";
  Index.awsRegion := Some "us-east-1";
  Index.applicationId := Some "app";
  Index.uploadSeconds := Some "30";
  Index.uploadMegabytes := Some "500";
  Index.eventsToIgnore := None;
  Index.maxAttempts := None |}.

(** An event of a given user on a given device. *)
Definition sample_visit (user : string) (id : string) (device : value Z)
    : PluginEvent Z := {|
  distinct_id := user;
  ip := None;
  site_url := "https://app.example";
  team_id := 2;
  now := "2021-05-01T10:00:00.000Z";
  event := "visit";
  sent_at := None;
  properties := Some [("$device_id", device)];
  timestamp := Some "2021-05-01T10:00:00.000Z";
  offset := None;
  uuid := Some id;
  extra := [] |}.

(** Two users on a device whose id is the name of an inherited method. *)
Definition inherited_1 : PluginEvent Z := sample_visit "user-1" "uuid-1" (VStr "valueOf").


(** An event of the device [__proto__]. *)
Definition proto_visit : PluginEvent Z := sample_visit "user-1" "uuid-1" (VStr "__proto__").

(** An object with a member named [toString], which does not print. *)
Definition unprintable : value Z := VObj [("toString", VNum 1)].

(** An event with such a device id, and one with such a screen density. *)
Definition unprintable_visit : PluginEvent Z := sample_visit "user-1" "uuid-1" unprintable.
Definition unprintable_screen : PluginEvent Z :=
  sample_event "pageview" (Some "uuid-1")
    [("$device_id", VStr "d1"); ("$screen_density", unprintable)].

(** The batch item that [first_delivery] leaves for its device. *)
Definition sample_earlier : EventsBatch Z := {|
  Endpoint := FilledEndpoint {|
    Address := "https://app.example";
    EndpointAttributes := ∅;
    ChannelType := VUndefined;
    Demographic := {|
      AppVersion := VUndefined; Locale := VUndefined; Make := VUndefined;
      Model := VUndefined; Platform := VUndefined; PlatformVersion := VUndefined;
      Timezone := VUndefined |};
    EffectiveDate := None;
    Location := {|
      City := VUndefined; Country := VUndefined; Latitude := VUndefined;
      Longitude := VUndefined; PostalCode := VUndefined; Region := VUndefined |};
    EndpointMetrics := ∅;
    RequestId := Some "uuid-1";
    User := {| UserId := VUndefined |} |};
  Events := {[ "uuid-1" := EntryEvent (pinpointEvent_at first_delivery sample_world) ]} |}.

Definition sample_batch : BatchObject Z :=
  {| own := {[ "d1" := sample_earlier ]}; prototype := None |}.

(** * Properties *)

(** The cases of an event that the effects of an iteration depend on:
    whether it has a uuid, and whether it has a usable timestamp. *)
Ltac case_optional_fields e :=
  let stamp := fresh "stamp" in
  destruct (uuid e) as [?|];
  (destruct (timestamp e) as [stamp|]; [destruct (string_truthy stamp)|]).

(** ** The monad *)

Section MonadFacts.
Context {number : Type}.

Lemma bind_normal {A B : Type} (m : M number A) (f : A -> M number B) w a w' :
  m w = (Normal a, w') -> bind m f w = f a w'.
Proof. intros Hm. unfold bind. now rewrite Hm. Qed.

Lemma bind_throw {A B : Type} (m : M number A) (f : A -> M number B) w err w' :
  m w = (Throw err, w') -> bind m f w = (Throw err, w').
Proof. intros Hm. unfold bind. now rewrite Hm. Qed.

Lemma reduce_app {A B : Type} (f : B -> A -> M number B) (l1 l2 : list A) (init : B) w :
  reduce f (l1 ++ l2) init w =
  bind (reduce f l1 init) (fun acc => reduce f l2 acc) w.
Proof.
  revert init w. induction l1 as [|x l1 IH]; intros init w; simpl.
  - reflexivity.
  - unfold bind. destruct (f init x w) as [[acc|err] w1].
    + rewrite IH. reflexivity.
    + reflexivity.
Qed.

Lemma and_then_normal {A B : Type} (c : Completion A) (f : A -> Completion B) b :
  and_then c f = Normal b -> exists a, c = Normal a /\ f a = Normal b.
Proof. destruct c as [a|err]; simpl; [eauto|discriminate]. Qed.

End MonadFacts.

(** ** The dictionary of batch items *)

Section ObjectFacts.
Context {number : Type}.
Implicit Types (o : BatchObject number) (item : EventsBatch number).

Lemma spread_empty {V : Type} (a : gmap string V) : spread a ∅ = a.
Proof. unfold spread. now rewrite (left_id_L ∅ (∪)). Qed.

Lemma found_truthy_Events_of o key :
  found_truthy (object_get o key) = is_Normal (Events_of (object_get o key)).
Proof.
  destruct (object_get o key) as [| | | | |events]; try reflexivity.
  simpl. destruct (events !! "Events") as [[|]|]; reflexivity.
Qed.

(** What a dictionary without a special prototype holds under a name
    other than [__proto__]. *)
Lemma object_get_plain o key :
  prototype o = None -> key <> "__proto__" ->
  object_get o key =
  match own o !! key with
  | Some item => FoundItem item
  | None => if inherited_function key then FoundFunction else FoundUndefined
  end.
Proof.
  intros Hproto Hkey. unfold object_get. rewrite Hproto.
  destruct (own o !! key); [reflexivity|].
  destruct (String.eqb_spec key "__proto__"); [contradiction|reflexivity].
Qed.

Lemma object_set_plain o key item :
  key <> "__proto__" ->
  object_set o key item = {| own := <[ key := item ]> (own o); prototype := prototype o |}.
Proof.
  intros Hkey. unfold object_set.
  destruct (String.eqb_spec key "__proto__"); [contradiction|reflexivity].
Qed.

(** On an object without an own member [__proto__], an own member is
    only ever written under its own name, and never under that one. *)
Lemma own_object_set o key item k :
  own o !! "__proto__" = None ->
  own (object_set o key item) !! k =
  if decide (key = k /\ key <> "__proto__") then Some item else own o !! k.
Proof.
  intros Hnone. unfold object_set.
  destruct (String.eqb_spec key "__proto__") as [->|Hkey]; simpl.
  - destruct (bool_decide (is_Some (own o !! "__proto__"))) eqn:Hsome.
    + apply bool_decide_eq_true_1 in Hsome. rewrite Hnone in Hsome.
      destruct Hsome as [x Hx]. discriminate.
    + simpl. destruct (decide _) as [[_ Hne]|_]; [contradiction|reflexivity].
  - destruct (decide (key = k)) as [->|Hne].
    + rewrite lookup_insert_eq. destruct (decide _) as [_|Hno]; [reflexivity|].
      exfalso. apply Hno. now split.
    + rewrite lookup_insert_ne by exact Hne.
      destruct (decide _) as [[Heq _]|_]; [contradiction|reflexivity].
Qed.

End ObjectFacts.

(** ** One iteration of the dispatcher *)

Section RunFacts.
Context {number : Type} `{JSNumber number}.
Implicit Types (e : PluginEvent number) (w : World number).
Implicit Types (batchEvents : BatchObject number).
Implicit Types (items : gmap string (EventsBatch number)).

Lemma batchKey_of_eq e w :
  Part0.batchKey_of e w = (Normal (batchKeyValue_at e w), snd (Part0.batchKey_of e w)).
Proof.
  unfold Part0.batchKey_of, batchKeyValue_at.
  destruct (truthy (prop e "$device_id")); reflexivity.
Qed.

Lemma Index_batchKey_of_eq e w :
  Index.batchKey_of e w = (Normal (batchKeyValue_at e w), index_world_after e w).
Proof.
  unfold index_world_after, Index.batchKey_of, batchKeyValue_at.
  destruct (truthy (prop e "$device_id")); reflexivity.
Qed.

Lemma getEvents_single e w :
  Part0.getEvents [e] (snd (Part0.batchKey_of e w)) =
  (Normal {[ eventKey_at e w := pinpointEvent_at e w ]}, world_after e w).
Proof.
  unfold world_after, Part0.getEvents, Part0.getEvents_step, Part0.batchKey_of,
    eventKey_at, pinpointEvent_at, stamp_at.
  simpl.
  destruct (truthy (prop e "$device_id")); case_optional_fields e; reflexivity.
Qed.

(** An iteration of the second variant: its effects are those of the
    batch key and of [getEvents]; its result is the merge of what the
    event contributes, unless the endpoint or the key throws. *)
Lemma sendToPinpoint_step_eq batchEvents e w :
  Part0.sendToPinpoint_step batchEvents e w =
  (try* it := iteration_at e w in Normal (merge_iteration batchEvents it),
   world_after e w).
Proof.
  unfold Part0.sendToPinpoint_step.
  erewrite bind_normal by apply batchKey_of_eq.
  erewrite bind_normal by apply getEvents_single.
  unfold iteration_at, lift, bind.
  destruct (Part0.getEndpoint e) as [endpoint|err]; [|reflexivity]. simpl.
  destruct (ToString (batchKeyValue_at e w)) as [key|err]; [|reflexivity]. simpl.
  unfold merge_iteration. simpl.
  rewrite found_truthy_Events_of, map_fmap_singleton.
  destruct (Events_of (object_get batchEvents key)) as [earlier|err]; reflexivity.
Qed.

Lemma reduce_sendToPinpoint_step es batchEvents w :
  fst (reduce Part0.sendToPinpoint_step es batchEvents w) =
  try* its := iterations es w in Normal (fold_left merge_iteration its batchEvents).
Proof.
  revert batchEvents w. induction es as [|e es IH]; intros batchEvents w.
  - reflexivity.
  - cbn [reduce iterations]. unfold bind at 1. rewrite sendToPinpoint_step_eq.
    destruct (iteration_at e w) as [it|err]; [|reflexivity]. cbn [and_then].
    rewrite IH. destruct (iterations es (world_after e w)); reflexivity.
Qed.

(** The result of the dispatcher's [reduce] in the second variant. *)
Lemma batchItems_eq es w :
  fst (Part0.batchItems es w) =
  try* its := iterations es w in Normal (fold_left merge_iteration its empty_object).
Proof. apply reduce_sendToPinpoint_step. Qed.

Lemma fillEvents_single e : Index.fillEvents [e] = {[ distinct_id e := index_record e ]}.
Proof. reflexivity. Qed.

(** An iteration of [src/index.ts]: it throws when the key does, and
    when nothing at all is found under the key. *)
Lemma Index_sendToPinpoint_step_eq batchEvents e w :
  Index.sendToPinpoint_step batchEvents e w =
  (try* it := index_iteration_at e w in
   try* _ := Events_of (object_get batchEvents (it_batchKey it)) in
   Normal (merge_iteration batchEvents it),
   index_world_after e w).
Proof.
  unfold Index.sendToPinpoint_step.
  erewrite bind_normal by apply Index_batchKey_of_eq.
  unfold index_iteration_at, lift, bind.
  destruct (ToString (batchKeyValue_at e w)) as [key|err]; [|reflexivity]. simpl.
  unfold merge_iteration. simpl. rewrite fillEvents_single, map_fmap_singleton.
  destruct (Events_of (object_get batchEvents key)) as [earlier|err]; reflexivity.
Qed.

Lemma Index_reduce_normal es batchEvents w obj :
  fst (reduce Index.sendToPinpoint_step es batchEvents w) = Normal obj ->
  exists its, index_iterations es w = Normal its
    /\ obj = fold_left merge_iteration its batchEvents.
Proof.
  revert batchEvents w. induction es as [|e es IH]; intros batchEvents w.
  - simpl. intros [= <-]. now exists [].
  - cbn [reduce index_iterations]. unfold bind at 1.
    rewrite Index_sendToPinpoint_step_eq.
    destruct (index_iteration_at e w) as [it|err]; [|discriminate]. cbn [and_then].
    destruct (Events_of (object_get batchEvents (it_batchKey it))); [|discriminate].
    cbn [and_then]. intros Hrest. apply IH in Hrest as (its & -> & ->).
    now exists (it :: its).
Qed.

Lemma iterations_length es w its : iterations es w = Normal its -> length its = length es.
Proof.
  revert w its. induction es as [|e es IH]; intros w its; simpl.
  - now intros [= <-].
  - destruct (iteration_at e w); [|discriminate]. simpl.
    destruct (iterations es (world_after e w)) as [rest|] eqn:Hrest; [|discriminate].
    simpl. intros [= <-]. simpl. f_equal. eauto.
Qed.


Lemma iteration_at_event e w it : iteration_at e w = Normal it -> it_event it = e.
Proof.
  unfold iteration_at. destruct (Part0.getEndpoint e); [|discriminate]. simpl.
  destruct (ToString _); [|discriminate]. simpl. now intros [= <-].
Qed.

Lemma iterations_events es w its : iterations es w = Normal its -> it_event <$> its = es.
Proof.
  revert w its. induction es as [|e es IH]; intros w its; simpl.
  - now intros [= <-].
  - destruct (iteration_at e w) as [it|] eqn:Hit; [|discriminate]. simpl.
    destruct (iterations es (world_after e w)) as [rest|] eqn:Hrest; [|discriminate].
    simpl. intros [= <-]. simpl. f_equal; [eauto using iteration_at_event | eauto].
Qed.

End RunFacts.

(** ** The fold of the iterations *)

Section FoldFacts.
Context {number : Type} `{JSNumber number}.
Implicit Types (e : PluginEvent number) (w : World number).
Implicit Types (batchEvents : BatchObject number).
Implicit Types (items : gmap string (EventsBatch number)).
Implicit Types (it : Iteration number) (its : list (Iteration number)).


(** On a dictionary whose prototype was never replaced, an iteration
    under a key other than [__proto__] writes an own member. *)
Lemma merge_iteration_plain batchEvents it :
  prototype batchEvents = None -> it_batchKey it <> "__proto__" ->
  merge_iteration batchEvents it =
  {| own := merge_own (own batchEvents) it; prototype := None |}.
Proof.
  intros Hproto Hkey. unfold merge_iteration, merge_own.
  rewrite object_set_plain, object_get_plain, Hproto by assumption.
  destruct (own batchEvents !! it_batchKey it) as [earlier|]; simpl; [reflexivity|].
  destruct (inherited_function (it_batchKey it)); simpl; [|reflexivity].
  now rewrite spread_empty.
Qed.

Lemma fold_merge_plain its batchEvents :
  prototype batchEvents = None ->
  Forall (fun it => it_batchKey it <> "__proto__") its ->
  fold_left merge_iteration its batchEvents =
  {| own := fold_left merge_own its (own batchEvents); prototype := None |}.
Proof.
  intros Hproto Hkeys. revert batchEvents Hproto.
  induction Hkeys as [|it its Hit _ IH]; intros batchEvents Hproto; simpl.
  - destruct batchEvents; simpl in *. now subst.
  - rewrite merge_iteration_plain by assumption. now rewrite IH.
Qed.

Lemma merge_own_lookup items it k :
  merge_own items it !! k =
  if decide (it_batchKey it = k) then
    Some {| Endpoint := it_endpoint it;
            Events := spread {[ it_eventKey it := EntryEvent (it_record it) ]}
                        (events_of items k) |}
  else items !! k.
Proof.
  unfold merge_own, events_of. destruct (decide (it_batchKey it = k)) as [->|Hne].
  - rewrite lookup_insert_eq. destruct (items !! k) as [earlier|]; simpl.
    + reflexivity.
    + now rewrite spread_empty.
  - now rewrite lookup_insert_ne.
Qed.

Lemma events_of_merge_own items it k :
  events_of (merge_own items it) k =
  if decide (it_batchKey it = k) then
    events_of items k ∪ {[ it_eventKey it := EntryEvent (it_record it) ]}
  else events_of items k.
Proof.
  unfold events_of at 1. rewrite merge_own_lookup.
  destruct (decide (it_batchKey it = k)); reflexivity.
Qed.

Lemma fold_own_snoc its it items :
  fold_left merge_own (its ++ [it]) items = merge_own (fold_left merge_own its items) it.
Proof. now rewrite fold_left_app. Qed.

Lemma fold_own_dom its items :
  dom (fold_left merge_own its items) = dom items ∪ list_to_set (it_batchKey <$> its).
Proof.
  revert items. induction its as [|it its IH]; intros items; simpl.
  - set_solver.
  - rewrite IH. unfold merge_own at 1. rewrite dom_insert_L. set_solver.
Qed.

Lemma fold_own_endpoint its items k :
  Endpoint <$> fold_left merge_own its items !! k =
  match last (filter (fun it => it_batchKey it = k) its) with
  | Some it => Some (it_endpoint it)
  | None => Endpoint <$> items !! k
  end.
Proof.
  induction its as [|it its IH] using rev_ind.
  - reflexivity.
  - rewrite fold_own_snoc, merge_own_lookup, filter_app, filter_cons, filter_nil.
    destruct (decide (it_batchKey it = k)) as [Hk|Hk].
    + now rewrite last_snoc.
    + rewrite (right_id_L [] (++)). exact IH.
Qed.

Lemma fold_own_events_dom its items k :
  dom (events_of (fold_left merge_own its items) k) =
  dom (events_of items k)
  ∪ list_to_set (it_eventKey <$> filter (fun it => it_batchKey it = k) its).
Proof.
  induction its as [|it its IH] using rev_ind.
  - simpl. set_solver.
  - rewrite fold_own_snoc, events_of_merge_own, filter_app, filter_cons, filter_nil.
    destruct (decide (it_batchKey it = k)) as [Hk|Hk].
    + rewrite dom_union_L, IH, fmap_app, list_to_set_app_L, dom_singleton_L. set_solver.
    + rewrite (right_id_L [] (++)). exact IH.
Qed.

(** An entry of the event mapping, once there, is never replaced. *)
Lemma fold_own_events_keep its items k ek r :
  events_of items k !! ek = Some r ->
  events_of (fold_left merge_own its items) k !! ek = Some r.
Proof.
  intros Hr. induction its as [|it its IH] using rev_ind; [exact Hr|].
  rewrite fold_own_snoc, events_of_merge_own.
  destruct (decide (it_batchKey it = k)); [|exact IH].
  now apply lookup_union_Some_l.
Qed.

Lemma fold_merge_snoc its it batchEvents :
  fold_left merge_iteration (its ++ [it]) batchEvents =
  merge_iteration (fold_left merge_iteration its batchEvents) it.
Proof. now rewrite fold_left_app. Qed.

(** The own members of the dictionary, whatever keys the run meets:
    no member is ever written under [__proto__], and the endpoint of
    a member is that of the last iteration under its key. *)
Lemma own_merge_iteration batchEvents it k :
  own batchEvents !! "__proto__" = None ->
  Endpoint <$> own (merge_iteration batchEvents it) !! k =
  if decide (it_batchKey it = k /\ it_batchKey it <> "__proto__")
  then Some (it_endpoint it)
  else Endpoint <$> own batchEvents !! k.
Proof.
  intros Hnone. unfold merge_iteration. rewrite own_object_set by exact Hnone.
  destruct (decide _); reflexivity.
Qed.

Lemma fold_merge_no_proto its batchEvents :
  own batchEvents !! "__proto__" = None ->
  own (fold_left merge_iteration its batchEvents) !! "__proto__" = None.
Proof.
  intros Hnone. induction its as [|it its IH] using rev_ind; [exact Hnone|].
  rewrite fold_merge_snoc. unfold merge_iteration. rewrite own_object_set by exact IH.
  destruct (decide _) as [[Heq Hne]|_]; [congruence|exact IH].
Qed.

Lemma fold_merge_endpoint its batchEvents k :
  own batchEvents !! "__proto__" = None ->
  k <> "__proto__" ->
  Endpoint <$> own (fold_left merge_iteration its batchEvents) !! k =
  match last (filter (fun it => it_batchKey it = k) its) with
  | Some it => Some (it_endpoint it)
  | None => Endpoint <$> own batchEvents !! k
  end.
Proof.
  intros Hnone Hk. induction its as [|it its IH] using rev_ind.
  - reflexivity.
  - rewrite fold_merge_snoc, own_merge_iteration, filter_app, filter_cons, filter_nil
      by now apply fold_merge_no_proto.
    destruct (decide (it_batchKey it = k)) as [Heq|Hne].
    + rewrite last_snoc. destruct (decide _) as [_|Hno]; [reflexivity|].
      exfalso. apply Hno. split; congruence.
    + rewrite (right_id_L [] (++)).
      destruct (decide _) as [[Heq _]|_]; [contradiction|exact IH].
Qed.

(** *** Lists *)



Lemma shared_key_list (k : string) {A : Type} (f : A -> Completion string) (l : list A)
    (ks : list string) :
  Forall (fun x => f x = Normal k) l ->
  Forall2 (fun x k' => f x = Normal k') l ks ->
  Forall (fun k' => k' = k) ks.
Proof.
  intros Hall Hks. induction Hks as [|x k' l ks Hx _ IH]; [constructor|].
  inversion Hall as [|? ? Hk Hrest]; subst. constructor; [congruence|now apply IH].
Qed.

End FoldFacts.

(** ** Runs of the dispatchers *)

Section DispatchFacts.
Context {number : Type} `{JSNumber number}.
Implicit Types (e : PluginEvent number) (w : World number).
Implicit Types (batchEvents : BatchObject number).
Implicit Types (items : gmap string (EventsBatch number)).
Implicit Types (it : Iteration number) (its : list (Iteration number)).

(** Induction on a value, through the elements of its arrays. *)
Lemma value_elements_ind (P : value number -> Prop) :
  P VUndefined -> P VNull -> (forall b, P (VBool b)) -> (forall n, P (VNum n)) ->
  (forall s, P (VStr s)) ->
  (forall elements, Forall P elements -> P (VArr elements)) ->
  (forall members, P (VObj members)) ->
  forall v, P v.
Proof.
  intros Hundefined Hnull Hbool Hnum Hstr Harr Hobj. fix IH 1.
  intros [| |b|n|s|elements|members];
    [exact Hundefined | exact Hnull | apply Hbool | apply Hnum | apply Hstr | | apply Hobj].
  apply Harr.
  exact ((fix all (l : list (value number)) : Forall P l :=
            match l with
            | [] => @List.Forall_nil _ P
            | x :: rest => @List.Forall_cons _ P x rest (IH x) (all rest)
            end) elements).
Qed.

(** A conversion to a string throws nothing but a [TypeError]. *)
Lemma ToString_TypeError (v : value number) err : ToString v = Throw err -> err = TypeError.
Proof.
  revert err. induction v as [| |b|n|s|elements IH|members] using value_elements_ind;
    intros err; simpl; try discriminate.
  - match goal with |- context [and_then ?c _] => destruct c as [printed|err'] eqn:Helems end;
      simpl; [discriminate|].
    intros [= <-]. revert err' Helems.
    induction IH as [|x rest Hx _ IHrest]; intros err'; simpl; [discriminate|].
    assert (Hrest : forall s0 : string,
              (try* more :=
                 (fix elems (l : list (value number)) : Completion (list string) :=
                    match l with
                    | [] => Normal []
                    | x0 :: rest0 =>
                        try* s := match x0 with
                                  | VUndefined | VNull => Normal EmptyString
                                  | _ => ToString x0
                                  end in
                        try* more := elems rest0 in Normal (s :: more)
                    end) rest in
               Normal (s0 :: more)) = Throw err' -> err' = TypeError).
    { intros s0.
      match goal with |- and_then ?c _ = _ -> _ => destruct c as [more|err0] eqn:Hrest end;
        simpl; [discriminate|].
      intros [= <-]. now apply IHrest. }
    destruct x as [| |b|n|s|inner|members]; cbv match; try apply Hrest.
    + destruct (ToString (VArr inner)) as [s|err''] eqn:Hinner; [apply Hrest|].
      intros [= <-]. now apply Hx.
    + destruct (ToString (VObj members)) as [s|err''] eqn:Hinner; [apply Hrest|].
      intros [= <-]. now apply Hx.
  - destruct (has_own "toString" members); [|discriminate]. now intros [= <-].
Qed.

(** A value that is not truthy converts. *)
Lemma falsy_ToString (v : value number) : truthy v = false -> is_Normal (ToString v) = true.
Proof. destruct v; simpl; try reflexivity; discriminate. Qed.

(** *** Drawn batch keys *)

Lemma pretty_N_go_head (P : ascii -> Prop) (n : N) (s : string) :
  (forall d, (d < 10)%N -> P (pretty_N_char d)) ->
  (n <> 0%N \/ match s with String c _ => P c | EmptyString => False end) ->
  match pretty_N_go n s with String c _ => P c | EmptyString => False end.
Proof.
  intros Hdigit. revert s. induction n as [n IH] using (well_founded_induction N.lt_wf_0).
  intros s Hs. destruct (decide (n = 0%N)) as [->|Hn].
  - rewrite pretty_N_go_0. destruct Hs as [Hs|Hs]; [congruence|exact Hs].
  - rewrite pretty_N_go_step by lia. apply IH.
    + apply N.div_lt; lia.
    + right. apply Hdigit. apply N.mod_lt. discriminate.
Qed.

(** A drawn batch key is a decimal numeral: it starts with a digit or
    a minus sign. *)
Lemma pretty_Z_head (P : ascii -> Prop) (z : Z) :
  (forall d, (d < 10)%N -> P (pretty_N_char d)) -> P "-"%char ->
  match pretty z with String c _ => P c | EmptyString => False end.
Proof.
  intros Hdigit Hminus.
  assert (Hpos : forall p : positive,
            match pretty p with String c _ => P c | EmptyString => False end).
  { intros p. unfold pretty, pretty_positive, pretty, pretty_N.
    destruct (decide (N.pos p = 0%N)); [discriminate|].
    apply pretty_N_go_head; [exact Hdigit|]. left. discriminate. }
  unfold pretty, pretty_Z. destruct z as [|p|p].
  - apply (Hdigit 0%N). reflexivity.
  - apply Hpos.
  - exact Hminus.
Qed.

Lemma digit_below_letters (d : N) : (d < 10)%N -> (N_of_ascii (pretty_N_char d) < 64)%N.
Proof.
  intros Hd. unfold pretty_N_char.
  destruct d as [|p]; [vm_compute; reflexivity|].
  repeat (destruct p as [p|p|]; try (vm_compute; reflexivity); try (exfalso; lia)).
Qed.

Lemma pretty_Z_plain (z : Z) : pretty z <> "__proto__".
Proof.
  pose proof (pretty_Z_head (fun c => (N_of_ascii c < 64)%N) z digit_below_letters) as Hhead.
  intros Heq. rewrite Heq in Hhead. specialize (Hhead eq_refl). vm_compute in Hhead.
  discriminate.
Qed.

Lemma pretty_Z_not_inherited (z : Z) : inherited_function (pretty z) = false.
Proof.
  pose proof (pretty_Z_head (fun c => (N_of_ascii c < 64)%N) z digit_below_letters eq_refl)
    as Hhead.
  destruct (inherited_function (pretty z)) eqn:Hin; [|reflexivity].
  unfold inherited_function in Hin. apply existsb_exists in Hin as (name & Hname & Heq).
  apply String.eqb_eq in Heq. rewrite Heq in Hhead.
  unfold Object_prototype_functions in Hname. simpl in Hname.
  repeat (destruct Hname as [<-|Hname]; [vm_compute in Hhead; discriminate|]).
  contradiction.
Qed.

(** *** The iterations of a run *)

Lemma converts_iteration e w :
  converts e = true -> exists it, iteration_at e w = Normal it.
Proof.
  unfold converts, iteration_at, batchKeyValue_at. intros Hc.
  apply andb_prop in Hc as [Hendpoint Hkey].
  destruct (Part0.getEndpoint e) as [endpoint|]; [|discriminate]. simpl.
  destruct (truthy (prop e "$device_id")).
  - destruct (ToString (prop e "$device_id")); [|discriminate]. simpl. eauto.
  - simpl. eauto.
Qed.

Lemma iteration_converts e w it : iteration_at e w = Normal it -> converts e = true.
Proof.
  unfold converts, iteration_at, batchKeyValue_at.
  destruct (Part0.getEndpoint e) as [endpoint|]; [|discriminate]. simpl.
  destruct (truthy (prop e "$device_id")) eqn:Hdevice.
  - destruct (ToString (prop e "$device_id")); [reflexivity|discriminate].
  - intros _. now apply falsy_ToString.
Qed.

(** The reduce of the second variant returns exactly when every event
    converts. *)
Lemma iterations_return es w :
  Forall (fun e => converts e = true) es <-> exists its, iterations es w = Normal its.
Proof.
  revert w. induction es as [|e es IH]; intros w; simpl.
  - split; [eauto|constructor].
  - split.
    + intros Hall. inversion Hall as [|? ? He Hes]; subst.
      destruct (converts_iteration e w He) as [it ->]. simpl.
      apply (IH (world_after e w)) in Hes as [its ->]. simpl. eauto.
    + intros [its Hits].
      destruct (iteration_at e w) as [it|] eqn:Hit; [|discriminate]. simpl in Hits.
      destruct (iterations es (world_after e w)) as [rest|] eqn:Hrest; [|discriminate].
      constructor; [eauto using iteration_converts|]. apply (IH (world_after e w)). eauto.
Qed.

Lemma iterations_eventKeys es w its :
  iterations es w = Normal its -> it_eventKey <$> its = eventKeys es w.
Proof.
  revert w its. induction es as [|e es IH]; intros w its; simpl.
  - now intros [= <-].
  - unfold iteration_at at 1. destruct (Part0.getEndpoint e); [|discriminate]. simpl.
    destruct (ToString _); [|discriminate]. simpl.
    destruct (iterations es (world_after e w)) as [rest|] eqn:Hrest; [|discriminate].
    simpl. intros [= <-]. simpl. f_equal. eauto.
Qed.

Lemma iterations_device_keys es w its ks :
  Forall (fun e => truthy (prop e "$device_id") = true) es ->
  Forall2 (fun e k => ToString (prop e "$device_id") = Normal k) es ks ->
  iterations es w = Normal its -> it_batchKey <$> its = ks.
Proof.
  intros Hall Hks. revert w its Hall.
  induction Hks as [|e k es ks Hk _ IH]; intros w its Hall; simpl.
  - now intros [= <-].
  - inversion Hall as [|? ? He Hes]; subst.
    unfold iteration_at at 1, batchKeyValue_at. rewrite He, Hk.
    destruct (Part0.getEndpoint e); [|discriminate]. simpl.
    destruct (iterations es (world_after e w)) as [rest|] eqn:Hrest; [|discriminate].
    simpl. intros [= <-]. simpl. f_equal. eauto.
Qed.



(** *** The reduce of [src/index.ts] *)



(** *** Grouping *)



Lemma device_events_convert es ks :
  Forall (fun e => is_Normal (Part0.getEndpoint e) = true) es ->
  Forall2 (fun e k => ToString (prop e "$device_id") = Normal k) es ks ->
  Forall (fun e => converts e = true) es.
Proof.
  intros Hendpoints Hks. induction Hks as [|e k es ks Hk _ IH]; [constructor|].
  inversion Hendpoints as [|? ? He Hes]; subst. constructor; [|now apply IH].
  unfold converts. now rewrite He, Hk.
Qed.


Lemma replicate_shared (k : string) (n : nat) : Forall (fun k' => k' = k) (replicate n k).
Proof. induction n; simpl; constructor; auto. Qed.

Lemma shared_fmap its (k : string) (n : nat) :
  it_batchKey <$> its = replicate n k -> Forall (fun it => it_batchKey it = k) its.
Proof.
  intros Hkeys. pose proof (replicate_shared k n) as Hall. rewrite <- Hkeys in Hall.
  now apply Forall_fmap in Hall.
Qed.


(** *** Endpoints *)

Lemma iteration_at_endpoint e w it :
  iteration_at e w = Normal it -> Part0.getEndpoint (it_event it) = Normal (it_endpoint it).
Proof.
  unfold iteration_at. destruct (Part0.getEndpoint e) as [endpoint|] eqn:He; [|discriminate].
  simpl. destruct (ToString _); [|discriminate]. simpl. now intros [= <-].
Qed.

Lemma iterations_endpoints es w its :
  iterations es w = Normal its ->
  Forall (fun it => Part0.getEndpoint (it_event it) = Normal (it_endpoint it)) its.
Proof.
  revert w its. induction es as [|e es IH]; intros w its; simpl.
  - intros [= <-]. constructor.
  - destruct (iteration_at e w) as [it|] eqn:Hit; [|discriminate]. simpl.
    destruct (iterations es (world_after e w)) as [rest|] eqn:Hrest; [|discriminate].
    simpl. intros [= <-]. constructor; eauto using iteration_at_endpoint.
Qed.

Lemma index_iterations_endpoints es w its :
  index_iterations es w = Normal its ->
  Forall (fun it => Index.fillEndpoint (it_event it) = it_endpoint it) its
  /\ it_event <$> its = es.
Proof.
  revert w its. induction es as [|e es IH]; intros w its; simpl.
  - intros [= <-]. split; [constructor|reflexivity].
  - unfold index_iteration_at at 1. destruct (ToString _); [|discriminate]. simpl.
    destruct (index_iterations es (index_world_after e w)) as [rest|] eqn:Hrest;
      [|discriminate].
    simpl. intros [= <-]. destruct (IH _ _ Hrest) as [Hall Hevents]. split.
    + constructor; [reflexivity|exact Hall].
    + rewrite fmap_cons. cbn [it_event]. now rewrite Hevents.
Qed.

(** The endpoint of an own member of the folded dictionary is that of
    the last iteration under its key. *)
Lemma fold_merge_last_endpoint its k (item : EventsBatch number) :
  own (fold_left merge_iteration its empty_object) !! k = Some item ->
  exists it,
    last (filter (fun it => it_batchKey it = k) its) = Some it
    /\ Endpoint item = it_endpoint it.
Proof.
  intros Hitem. destruct (decide (k = "__proto__")) as [->|Hk].
  - rewrite fold_merge_no_proto in Hitem by apply lookup_empty. discriminate.
  - pose proof (fold_merge_endpoint its empty_object k (lookup_empty _) Hk) as Hend.
    rewrite Hitem in Hend. simpl in Hend.
    destruct (last _) as [it|]; [|now rewrite lookup_empty in Hend].
    exists it. split; [reflexivity|]. congruence.
Qed.

(** Every iteration under a key other than [__proto__] leaves an own
    member under its key. *)
Lemma fold_merge_member its it :
  it ∈ its -> it_batchKey it <> "__proto__" ->
  is_Some (own (fold_left merge_iteration its empty_object) !! it_batchKey it).
Proof.
  intros Hin Hk.
  pose proof (fold_merge_endpoint its empty_object _ (lookup_empty _) Hk) as Hend.
  destruct (last (filter (fun it' => it_batchKey it' = it_batchKey it) its)) as [it'|] eqn:Hlast.
  - destruct (own _ !! it_batchKey it); [eauto|discriminate].
  - apply last_None in Hlast.
    assert (Hfiltered : it ∈ filter (fun it' => it_batchKey it' = it_batchKey it) its)
      by now apply list_elem_of_filter.
    rewrite Hlast in Hfiltered. now apply elem_of_nil in Hfiltered.
Qed.

Lemma Part0_endpoint_last_write_wins es w its :
  iterations es w = Normal its ->
  exists obj,
    fst (Part0.batchItems es w) = Normal obj
    /\ (forall it, it ∈ its -> it_batchKey it <> "__proto__" ->
        is_Some (own obj !! it_batchKey it))
    /\ forall k item,
         own obj !! k = Some item ->
         exists it,
           last (filter (fun it => it_batchKey it = k) its) = Some it
           /\ Part0.getEndpoint (it_event it) = Normal (Endpoint item).
Proof.
  intros Hits. exists (fold_left merge_iteration its empty_object).
  split; [now rewrite batchItems_eq, Hits|]. split; [apply fold_merge_member|].
  intros k item Hitem.
  destruct (fold_merge_last_endpoint its k item Hitem) as (it & Hlast & Hend).
  exists it. split; [exact Hlast|]. rewrite Hend.
  pose proof (iterations_endpoints es w its Hits) as Hall.
  rewrite Forall_forall in Hall. apply Hall.
  apply last_Some in Hlast as [l' Hl'].
  assert (Hin : it ∈ filter (fun it0 => it_batchKey it0 = k) its).
  { rewrite Hl'. apply elem_of_app. right. now apply list_elem_of_singleton. }
  now apply list_elem_of_filter in Hin as [_ Hin].
Qed.

Lemma Index_endpoint_last_write_wins es w obj :
  fst (Index.batchItems es w) = Normal obj ->
  exists its,
    index_iterations es w = Normal its
    /\ it_event <$> its = es
    /\ forall k item,
         own obj !! k = Some item ->
         exists it,
           last (filter (fun it => it_batchKey it = k) its) = Some it
           /\ Index.fillEndpoint (it_event it) = Endpoint item.
Proof.
  intros Hrun. apply Index_reduce_normal in Hrun as (its & Hits & ->).
  destruct (index_iterations_endpoints es w its Hits) as [Hall Hevents].
  exists its. split; [exact Hits|]. split; [exact Hevents|].
  intros k item Hitem.
  destruct (fold_merge_last_endpoint its k item Hitem) as (it & Hlast & Hend).
  exists it. split; [exact Hlast|]. rewrite Hend.
  rewrite Forall_forall in Hall. apply Hall.
  apply last_Some in Hlast as [l' Hl'].
  assert (Hin : it ∈ filter (fun it0 => it_batchKey it0 = k) its).
  { rewrite Hl'. apply elem_of_app. right. now apply list_elem_of_singleton. }
  now apply list_elem_of_filter in Hin as [_ Hin].
Qed.

(** *** Merging into an existing batch item *)

Lemma spread_keeps_earlier (earlier : gmap string (EventEntry number)) key entry :
  keeps_earlier earlier (spread {[ key := entry ]} earlier) key entry.
Proof.
  unfold keeps_earlier, spread. repeat split.
  - intros k r Hk. now apply lookup_union_Some_l.
  - intros Hnone. rewrite lookup_union_r by exact Hnone. apply lookup_singleton_eq.
  - intros k Hk. rewrite lookup_union_l; [reflexivity|]. now apply lookup_singleton_ne.
Qed.

(** C6 -- Merging an event into the batch item found under its batch
    key: the step returns (in the second variant, when the endpoint of
    the event is extracted), the entries the item held under other
    event keys are preserved, and an entry it held under the event's
    own key is kept as well -- the record of the later event is added
    only when its key is free.  Both variants merge this way. *)
Theorem merge_keeps_earlier_record batchEvents e w k earlier :
  ToString (batchKeyValue_at e w) = Normal k ->
  object_get batchEvents k = FoundItem earlier ->
  (forall endpoint,
     Part0.getEndpoint e = Normal endpoint ->
     exists merged,
       Part0.sendToPinpoint_step batchEvents e w =
         (Normal (object_set batchEvents k {| Endpoint := endpoint; Events := merged |}),
          world_after e w)
       /\ keeps_earlier (Events earlier) merged
            (eventKey_at e w) (EntryEvent (pinpointEvent_at e w)))
  /\
  (exists merged,
     fst (Index.sendToPinpoint_step batchEvents e w) =
       Normal (object_set batchEvents k
                 {| Endpoint := Index.fillEndpoint e; Events := merged |})
     /\ Index.fillEvents [e] = {[ distinct_id e := index_record e ]}
     /\ keeps_earlier (Events earlier) merged (distinct_id e) (EntryEvent (index_record e))).
Proof.
  intros Hk Hfound. split.
  - intros endpoint Hendpoint. eexists. split.
    + rewrite sendToPinpoint_step_eq. unfold iteration_at. rewrite Hendpoint, Hk.
      cbn [and_then]. unfold merge_iteration. cbn [it_batchKey it_endpoint].
      rewrite Hfound. cbn [Events_of]. reflexivity.
    + apply spread_keeps_earlier.
  - eexists. split; [|split].
    + rewrite Index_sendToPinpoint_step_eq. unfold index_iteration_at. rewrite Hk.
      cbn [and_then it_batchKey]. rewrite Hfound. cbn [Events_of and_then].
      unfold merge_iteration. cbn [it_batchKey it_endpoint]. rewrite Hfound.
      cbn [Events_of fst]. reflexivity.
    + reflexivity.
    + apply spread_keeps_earlier.
Qed.

(** *** The record builders *)

Lemma getEvents_step_eq (pinpointEvents : gmap string (Event number)) e w :
  exists w',
    Part0.getEvents_step pinpointEvents e w =
    (Normal {[ eventKey_at e w := pinpointEvent_at e w ]}, w').
Proof.
  unfold Part0.getEvents_step, eventKey_at, pinpointEvent_at, stamp_at.
  case_optional_fields e; cbn; eexists; reflexivity.
Qed.

Lemma reduce_getEvents_step es (pinpointEvents : gmap string (Event number)) w :
  exists m w',
    reduce Part0.getEvents_step es pinpointEvents w = (Normal m, w') /\
    match last es with
    | Some e => exists w1, m = {[ eventKey_at e w1 := pinpointEvent_at e w1 ]}
    | None => m = pinpointEvents
    end.
Proof.
  revert pinpointEvents w. induction es as [|e es IH]; intros pinpointEvents w.
  - exists pinpointEvents, w. split; reflexivity.
  - destruct (getEvents_step_eq pinpointEvents e w) as [w1 Hstep].
    destruct (IH {[ eventKey_at e w := pinpointEvent_at e w ]} w1) as (m & w' & Hrun & Hm).
    exists m, w'. split.
    + simpl. erewrite bind_normal by exact Hstep. exact Hrun.
    + destruct es as [|e' es'].
      * exists w. exact Hm.
      * rewrite last_cons_cons.
        destruct (last (e' :: es')) eqn:Hlast; [exact Hm|].
        apply last_None in Hlast. discriminate.
Qed.

(** The record that [getEvents] returns is that of the last event, in
    the world that the events before it leave. *)
Lemma reduce_getEvents_step_last es (pinpointEvents : gmap string (Event number)) w :
  fst (reduce Part0.getEvents_step es pinpointEvents w) =
  Normal match last es with
         | Some e =>
             let w1 := snd (reduce Part0.getEvents_step (removelast es) pinpointEvents w) in
             {[ eventKey_at e w1 := pinpointEvent_at e w1 ]}
         | None => pinpointEvents
         end.
Proof.
  revert pinpointEvents w. induction es as [|e es IH]; intros pinpointEvents w.
  - reflexivity.
  - destruct (getEvents_step_eq pinpointEvents e w) as [w1 Hstep].
    cbn [reduce]. erewrite bind_normal by exact Hstep. rewrite IH.
    destruct es as [|e' es'].
    + reflexivity.
    + rewrite last_cons_cons.
      destruct (last (e' :: es')) eqn:Hlast; [|apply last_None in Hlast; discriminate].
      change (removelast (e :: e' :: es')) with (e :: removelast (e' :: es')).
      cbn [reduce]. erewrite (bind_normal _ _ w) by exact Hstep. reflexivity.
Qed.

Lemma fillEvents_last (es : list (PluginEvent number)) (init : gmap string (Event number)) :
  fold_left Index.fillEvents_step es init =
  match last es with
  | Some e => Index.fillEvents [e]
  | None => init
  end.
Proof.
  revert init. induction es as [|e es IH]; intros init; simpl.
  - reflexivity.
  - rewrite IH. destruct es as [|e' es']; [reflexivity|].
    rewrite last_cons_cons.
    destruct (last (e' :: es')) eqn:Hlast; [reflexivity|].
    apply last_None in Hlast. discriminate.
Qed.

(** C9 -- The record builders return at most one entry whatever the
    length of their input.  [getEvents] returns, and what it returns
    is empty for no event and otherwise the single record of the last
    event, under its event key, as built in the world that the events
    before it leave; [fillEvents] returns nothing for no event and
    otherwise the single record of the last event under its
    [distinct_id]. *)
Theorem record_builders_keep_last_only es w :
  (exists m,
     fst (Part0.getEvents es w) = Normal m
     /\ (size m <= 1)%nat
     /\ m = match last es with
            | Some e =>
                let w1 := snd (Part0.getEvents (removelast es) w) in
                {[ eventKey_at e w1 := pinpointEvent_at e w1 ]}
            | None => ∅
            end)
  /\ (size (Index.fillEvents es) <= 1)%nat
  /\ Index.fillEvents es =
     match last es with
     | Some e => {[ distinct_id e := index_record e ]}
     | None => ∅
     end.
Proof.
  split; [|split].
  - eexists. split; [apply reduce_getEvents_step_last|]. split; [|reflexivity].
    destruct (last es) as [e|].
    + cbv zeta. rewrite map_size_singleton. lia.
    + rewrite map_size_empty. lia.
  - unfold Index.fillEvents. rewrite fillEvents_last.
    destruct (last es) as [e|].
    + rewrite fillEvents_single, map_size_singleton. lia.
    + rewrite map_size_empty. lia.
  - unfold Index.fillEvents. rewrite fillEvents_last.
    destruct (last es); reflexivity.
Qed.

(** *** Determinism *)

Lemma identified_iteration e w1 w2 :
  identified e = true ->
  iteration_at e w1 = iteration_at e w2
  /\ index_iteration_at e w1 = index_iteration_at e w2.
Proof.
  unfold identified, iteration_at, index_iteration_at, batchKeyValue_at, eventKey_at,
    pinpointEvent_at, stamp_at.
  intros Hid. apply andb_prop in Hid as [Hid Hstamp]. apply andb_prop in Hid as [Hdev Hid].
  apply bool_decide_eq_true_1 in Hid as [u Hu].
  rewrite Hdev, Hu. destruct (timestamp e) as [t|]; [|discriminate].
  rewrite Hstamp. split; reflexivity.
Qed.

Lemma identified_iterations es w1 w2 :
  Forall (fun e => identified e = true) es -> iterations es w1 = iterations es w2.
Proof.
  intros Hall. revert w1 w2. induction Hall as [|e es He _ IH]; intros w1 w2; simpl.
  - reflexivity.
  - rewrite (proj1 (identified_iteration e w1 w2 He)).
    now rewrite (IH (world_after e w1) (world_after e w2)).
Qed.

Lemma Index_reduce_deterministic es batchEvents w1 w2 :
  Forall (fun e => identified e = true) es ->
  fst (reduce Index.sendToPinpoint_step es batchEvents w1) =
  fst (reduce Index.sendToPinpoint_step es batchEvents w2).
Proof.
  intros Hall. revert batchEvents w1 w2.
  induction Hall as [|e es He _ IH]; intros batchEvents w1 w2; simpl.
  - reflexivity.
  - unfold bind. rewrite !Index_sendToPinpoint_step_eq.
    rewrite (proj2 (identified_iteration e w1 w2 He)).
    destruct (index_iteration_at e w2) as [it|]; [|reflexivity]. cbn [and_then].
    destruct (Events_of _); [apply IH | reflexivity].
Qed.

(** C10 -- Determinism under full identification: when every event
    carries a non-empty device id, a uuid and a timestamp, the outcome
    of the dispatcher's [reduce] -- the batch items, or the error
    thrown -- is the same in any two worlds, whatever their random
    draws, generated ids and clocks, in both variants; and the second
    variant does build the batch items when the endpoint and the
    batch key of every event convert. *)
Theorem identified_events_group_deterministically es w1 w2 :
  Forall (fun e => identified e = true) es ->
  fst (Part0.batchItems es w1) = fst (Part0.batchItems es w2)
  /\ fst (Index.batchItems es w1) = fst (Index.batchItems es w2)
  /\ (Forall (fun e => converts e = true) es ->
      exists obj, fst (Part0.batchItems es w1) = Normal obj).
Proof.
  intros Hall. split; [|split].
  - rewrite !batchItems_eq. now rewrite (identified_iterations es w1 w2 Hall).
  - now apply Index_reduce_deterministic.
  - intros Hconverts. apply (iterations_return es w1) in Hconverts as [its Hits].
    rewrite batchItems_eq, Hits. simpl. eauto.
Qed.

(** *** What a run leaves in the world *)

Lemma world_after_fields e w :
  console (world_after e w) = (console w ++ [info_Event e])%list
  /\ submitted (world_after e w) = submitted w
  /\ pinpoint (world_after e w) = pinpoint w.
Proof.
  unfold world_after, Part0.batchKey_of, Part0.getEvents, Part0.getEvents_step.
  simpl.
  destruct (truthy (prop e "$device_id")); case_optional_fields e;
    cbn; repeat split; reflexivity.
Qed.

Lemma world_after_all_fields es w :
  console (world_after_all es w) = (console w ++ (info_Event <$> es))%list
  /\ submitted (world_after_all es w) = submitted w
  /\ pinpoint (world_after_all es w) = pinpoint w.
Proof.
  revert w. induction es as [|e es IH]; intros w; simpl.
  - now rewrite (right_id_L [] (++)).
  - destruct (IH (world_after e w)) as (Hc & Hs & Hp).
    destruct (world_after_fields e w) as (Hc1 & Hs1 & Hp1).
    rewrite Hc, Hs, Hp, Hc1, Hs1, Hp1. rewrite <- (assoc_L (++)). repeat split; reflexivity.
Qed.

(** A run that returns has had the effects of every event. *)
Lemma reduce_sendToPinpoint_world es batchEvents w its :
  iterations es w = Normal its ->
  reduce Part0.sendToPinpoint_step es batchEvents w =
  (Normal (fold_left merge_iteration its batchEvents), world_after_all es w).
Proof.
  revert batchEvents w its. induction es as [|e es IH]; intros batchEvents w its.
  - simpl. now intros [= <-].
  - cbn [reduce iterations world_after_all]. unfold bind at 1.
    rewrite sendToPinpoint_step_eq.
    destruct (iteration_at e w) as [it|]; [|discriminate]. cbn [and_then].
    destruct (iterations es (world_after e w)) as [rest|] eqn:Hrest; [|discriminate].
    cbn [and_then]. intros [= <-]. now rewrite (IH _ _ rest Hrest).
Qed.

(** A run that throws stops at the first event that does not convert,
    after the effects of that event. *)
Lemma reduce_sendToPinpoint_throw es batchEvents w err :
  iterations es w = Throw err ->
  exists es1 e es2,
    es = (es1 ++ e :: es2)%list
    /\ Forall (fun e => converts e = true) es1
    /\ converts e = false
    /\ reduce Part0.sendToPinpoint_step es batchEvents w =
       (Throw err, world_after_all (es1 ++ [e]) w).
Proof.
  revert batchEvents w. induction es as [|e es IH]; intros batchEvents w.
  - discriminate.
  - cbn [reduce iterations]. unfold bind at 1. rewrite sendToPinpoint_step_eq.
    destruct (iteration_at e w) as [it|err'] eqn:Hit; cbn [and_then].
    + destruct (iterations es (world_after e w)) as [rest|err'] eqn:Hrest; [discriminate|].
      cbn [and_then]. intros [= <-].
      destruct (IH (merge_iteration batchEvents it) _ Hrest)
        as (es1 & e' & es2 & -> & Hall & He' & Hrun).
      exists (e :: es1), e', es2. split; [reflexivity|].
      split; [constructor; eauto using iteration_converts|]. split; [exact He'|].
      exact Hrun.
    + intros [= <-]. exists [], e, es. split; [reflexivity|]. split; [constructor|].
      split; [|reflexivity].
      destruct (converts e) eqn:Hc; [|reflexivity].
      destruct (converts_iteration e w Hc) as [it Hit']. congruence.
Qed.

(** *** The outcome of a dispatch in the second variant *)

(** When no iteration throws, the promise is fulfilled: one command is
    submitted, and a failed submission adds one error line to the
    console and nothing else. *)
Lemma Part0_sendToPinpoint_fulfilled es config w its :
  iterations es w = Normal its ->
  let command := {| ApplicationId := Part0.applicationId config;
                    BatchItem := fold_left merge_iteration its empty_object |} in
  let reply := pinpoint w (length (submitted w)) command in
  exists w',
    Part0.sendToPinpoint es config w = (Normal (Normal tt), w') /\
    submitted w' = (submitted w ++ [command])%list /\
    console w' =
      (console w ++ (info_Event <$> es)
       ++ match reply_err reply with
          | Some message => [error_Error_sending message command]
          | None => []
          end
       ++ [info_Uploaded (length es) (Part0.applicationId config);
           info_Response (reply_data reply)])%list.
Proof.
  intros Hits command reply.
  destruct (world_after_all_fields es w) as (Hc & Hs & Hp).
  unfold Part0.sendToPinpoint, async, Part0.sendToPinpoint_body, Part0.batchItems.
  erewrite bind_normal by (apply reduce_sendToPinpoint_world; exact Hits).
  unfold submit, Part0.putEvents_callback. cbn. rewrite Hs, Hp. fold command. fold reply.
  destruct (reply_err reply) as [message|]; cbn; eexists; (split; [reflexivity|]);
    cbn; rewrite Hc, <- ?(assoc_L (++)); split; reflexivity.
Qed.

(** When an iteration throws, the promise is rejected and nothing is
    submitted. *)
Lemma Part0_sendToPinpoint_rejected es config w err :
  iterations es w = Throw err ->
  exists w',
    Part0.sendToPinpoint es config w = (Normal (Throw err), w')
    /\ submitted w' = submitted w
    /\ exists logged, logged `prefix_of` es
         /\ console w' = (console w ++ (info_Event <$> logged))%list.
Proof.
  intros Hits.
  destruct (reduce_sendToPinpoint_throw es empty_object w err Hits)
    as (es1 & e & es2 & -> & _ & _ & Hrun).
  destruct (world_after_all_fields (es1 ++ [e]) w) as (Hc & Hs & _).
  unfold Part0.sendToPinpoint, async, Part0.sendToPinpoint_body, Part0.batchItems.
  erewrite bind_throw by exact Hrun.
  eexists. split; [reflexivity|]. split; [exact Hs|].
  exists (es1 ++ [e])%list. split; [|exact Hc].
  exists es2. now rewrite <- (assoc_L (++)).
Qed.

(** An empty flush submits nothing in the second variant. *)
Lemma Part0_empty_flush_is_noop config w :
  fst (Part0.onFlush [] config w) = Normal (Normal tt)
  /\ submitted (snd (Part0.onFlush [] config w)) = submitted w.
Proof. split; reflexivity. Qed.

(** The second variant keys the record of an event by its uuid, and by
    the next generated id -- one more draw from the generator -- when
    it has none. *)
Lemma Part0_getEvents_key e w :
  exists w',
    Part0.getEvents [e] w = (Normal {[ eventKey_at e w := pinpointEvent_at e w ]}, w')
    /\ eventKey_at e w = default (random_uuids w (uuids_taken w)) (uuid e)
    /\ uuids_taken w' =
       (uuids_taken w + match uuid e with Some _ => 0 | None => 1 end)%nat.
Proof.
  unfold Part0.getEvents, Part0.getEvents_step, eventKey_at, pinpointEvent_at, stamp_at.
  simpl.
  case_optional_fields e;
    cbn; eexists; (split; [reflexivity|]); cbn; split; (reflexivity || lia).
Qed.

(** *** The dispatcher of [src/index.ts] *)

Lemma Index_batchKey_of_fields e w :
  console (index_world_after e w) = console w
  /\ submitted (index_world_after e w) = submitted w.
Proof.
  unfold index_world_after, Index.batchKey_of.
  destruct (truthy (prop e "$device_id")); split; reflexivity.
Qed.

(** The first iteration throws unless the batch key names something
    that the empty accumulator inherits. *)
Lemma Index_batchItems_throws e es w :
  (forall k, ToString (batchKeyValue_at e w) = Normal k ->
             k <> "__proto__" /\ inherited_function k = false) ->
  Index.batchItems (e :: es) w = (Throw TypeError, index_world_after e w).
Proof.
  intros Hkey. unfold Index.batchItems. cbn [reduce]. unfold bind.
  rewrite Index_sendToPinpoint_step_eq. unfold index_iteration_at.
  destruct (ToString (batchKeyValue_at e w)) as [k|err] eqn:Hk.
  - destruct (Hkey k eq_refl) as [Hplain Hnot]. cbn [and_then it_batchKey].
    rewrite object_get_plain by (reflexivity || assumption).
    simpl. rewrite lookup_empty, Hnot. reflexivity.
  - cbn [and_then]. now rewrite (ToString_TypeError _ _ Hk).
Qed.

(** An event without a device id gets a drawn key, which names
    nothing. *)
Lemma drawn_key_names_nothing e w k :
  truthy (prop e "$device_id") = false ->
  ToString (batchKeyValue_at e w) = Normal k ->
  k <> "__proto__" /\ inherited_function k = false.
Proof.
  unfold batchKeyValue_at. intros ->. simpl. intros [= <-].
  split; [apply pretty_Z_plain | apply pretty_Z_not_inherited].
Qed.

(** C2 -- The dispatcher of [src/index.ts] throws a [TypeError] at its
    caller on every non-empty list of events whose first batch key is
    not the name of something every object inherits: the first
    iteration reads [.Events] off a batch item that does not exist
    yet.  Nothing is submitted and nothing is logged, and the promise
    of the flush callback is rejected. *)
Theorem index_dispatcher_throws e es config w :
  (forall k, ToString (batchKeyValue_at e w) = Normal k ->
             k <> "__proto__" /\ inherited_function k = false) ->
  fst (Index.sendToPinpoint (e :: es) config w) = Throw TypeError
  /\ submitted (snd (Index.sendToPinpoint (e :: es) config w)) = submitted w
  /\ console (snd (Index.sendToPinpoint (e :: es) config w)) = console w
  /\ fst (Index.onFlush (e :: es) config w) = Normal (Throw TypeError).
Proof.
  intros Hkey. destruct (Index_batchKey_of_fields e w) as [Hc Hs].
  unfold Index.onFlush, async, Index.sendToPinpoint.
  erewrite bind_throw by (apply Index_batchItems_throws; exact Hkey).
  simpl. repeat split; assumption.
Qed.

(** *** Flushing the buffer *)

(** The flush callback of [src/index.ts] has no test of its own: were
    it called without events, it would submit a command with no batch
    items. *)
Remark Index_onFlush_unguarded config w :
  submitted (snd (Index.onFlush [] config w)) =
  (submitted w ++ [{| ApplicationId := Index.applicationId config;
                      BatchItem := empty_object |}])%list.
Proof. reflexivity. Qed.


End DispatchFacts.

(** ** Attributes *)

Section AttributeFacts.
Context {number : Type} `{JSNumber number}.
Implicit Types (e : PluginEvent number).

Lemma fold_spread_lookup {V : Type} (v : string -> V) (keys : list string)
    (attributes : gmap string V) (key : string) :
  fold_left (fun attributes k => spread {[ k := v k ]} attributes) keys attributes !! key =
  match attributes !! key with
  | Some x => Some x
  | None => if decide (key ∈ keys) then Some (v key) else None
  end.
Proof.
  revert attributes. induction keys as [|k keys IH]; intros attributes; cbn [fold_left].
  - destruct (attributes !! key); [reflexivity|].
    destruct (decide (key ∈ [])) as [Hin|_]; [|reflexivity]. now apply elem_of_nil in Hin.
  - rewrite IH. unfold spread. rewrite lookup_union.
    destruct (attributes !! key) as [x|]; simpl.
    + now destruct ({[ k := v k ]} !! key).
    + destruct (decide (k = key)) as [->|Hne].
      * rewrite lookup_singleton_eq. simpl.
        destruct (decide (key ∈ key :: keys)) as [_|Hnin]; [reflexivity|].
        destruct Hnin. apply elem_of_cons. now left.
      * rewrite lookup_singleton_ne by exact Hne. simpl.
        destruct (decide (key ∈ keys)) as [Hin|Hnin],
          (decide (key ∈ k :: keys)) as [Hin'|Hnin']; try reflexivity.
        -- destruct Hnin'. apply elem_of_cons. now right.
        -- apply elem_of_cons in Hin' as [->|Hin']; congruence.
Qed.

(** In the second variant the attribute of every property key is
    [getAttribute] applied to the event object. *)
Lemma Part0_attributes_of_lookup e key :
  Part0.attributes_of e !! key =
  if decide (key ∈ Object_keys (default [] (properties e))) then
    Some (Part0.getAttribute (Some (PluginEvent_members e)) key)
  else None.
Proof.
  unfold Part0.attributes_of.
  rewrite (fold_spread_lookup
             (fun k => Part0.getAttribute (Some (PluginEvent_members e)) k)).
  now rewrite lookup_empty.
Qed.

(** In [src/index.ts] it is the JSON text of the property. *)
Lemma Index_attributes_of_lookup e key :
  Index.attributes_of e !! key =
  if decide (key ∈ Object_keys (default [] (properties e))) then
    Some (JSON_stringify (member key (default [] (properties e))))
  else None.
Proof.
  unfold Index.attributes_of.
  rewrite (fold_spread_lookup
             (fun k => JSON_stringify (member k (default [] (properties e))))).
  now rewrite lookup_empty.
Qed.

(** What [getAttribute] does with what it finds under the key. *)
Lemma getAttribute_coercion (properties : option (list (string * value number))) key :
  Part0.getAttribute properties key =
  match Get (default [] properties) key with
  | OwnProperty (VStr s) => Some s
  | OwnProperty (VNum n) => Some (number_toString n)
  | OwnProperty (VBool b) => Some (bool_toString b)
  | OwnProperty v => JSON_stringify v
  | PrototypeObject => Some "{}"
  | InheritedFunction | NoProperty => None
  end.
Proof.
  unfold Part0.getAttribute. destruct (Get (default [] properties) key) as [v| | |];
    [destruct v|..]; reflexivity.
Qed.

Lemma JSON_stringify_defined (v : value number) :
  v <> VUndefined -> is_Some (JSON_stringify v).
Proof. destruct v; intros Hv; simpl; eauto. congruence. Qed.

Lemma Index_fillEvents_dom e : dom (Index.fillEvents [e]) = ({[ distinct_id e ]} : gset string).
Proof.
  change (Index.fillEvents [e]) with (Index.fillEvents_step ∅ e).
  unfold Index.fillEvents_step. apply dom_singleton_L.
Qed.

End AttributeFacts.

(** ** Configuration *)

Lemma clamp_clamped (configured : option string) (upper : Z) :
  1 <= upper ->
  clamped configured upper
    (Z.max 1 (Z.min (number_or (parseInt_config configured) 1) upper)).
Proof.
  intros Hupper. unfold clamped, number_or.
  destruct (parseInt_config configured) as [n|].
  - destruct (n =? 0) eqn:Hzero, (n <? 1) eqn:Hlow, (upper <? n) eqn:Hhigh; lia.
  - lia.
Qed.

(** A missing entry reads as [NaN]. *)
Lemma parseInt_config_missing : parseInt_config None = None.
Proof. reflexivity. Qed.

(** C8 -- Configuration clamping: in both variants the computed size
    limit lies between 1 and 100 and the computed upload interval
    between 1 and 60; each is the configured value when that lies in
    the range, 1 when the entry is missing, is not a number or lies
    below the range, and the upper bound when it lies above. *)
Theorem configuration_clamping (config : Index.Config) (config' : Part0.Config) :
  clamped (Index.uploadMegabytes config) 100 (Index.computed_uploadMegabytes config)
  /\ clamped (Index.uploadSeconds config) 60 (Index.computed_uploadSeconds config)
  /\ clamped (Part0.uploadKilobytes config') 100 (Part0.computed_uploadKilobytes config')
  /\ clamped (Part0.uploadSeconds config') 60 (Part0.computed_uploadSeconds config').
Proof. repeat split; apply clamp_clamped; lia. Qed.

(** An entry above the range gives the upper bound, not the minimum. *)
Lemma size_limit_above_range_is_not_minimum :
  Index.uploadMegabytes sample_index_config = Some "500"
  /\ Index.computed_uploadMegabytes sample_index_config = 100
  /\ Index.computed_uploadMegabytes sample_index_config <> 1.
Proof. repeat split. discriminate. Qed.

(** The buffer is created with the computed values. *)
Lemma setupPlugin_options (config : Index.Config) (options : BufferOptions) :
  Index.setupPlugin config = Normal options ->
  limit options = Index.computed_uploadMegabytes config * 1024 * 1024
  /\ timeoutSeconds options = Index.computed_uploadSeconds config.
Proof.
  unfold Index.setupPlugin. intros Hsetup.
  repeat match type of Hsetup with
         | (if ?c then _ else _) = _ => destruct c; [discriminate|]
         end.
  injection Hsetup as <-. split; reflexivity.
Qed.

(** ** The example events *)

(** The two page views of one device in the second variant: one batch
    item, two entries, and the endpoint of the second event. *)
Example two_pageviews_of_one_device :
  exists obj item,
    fst (Part0.batchItems [pageview_1; pageview_2] sample_world) = Normal obj
    /\ size (own obj) = 1%nat
    /\ prototype obj = None
    /\ own obj !! "d1" = Some item
    /\ Part0.getEndpoint pageview_2 = Normal (Endpoint item)
    /\ size (Events item) = 2%nat.
Proof.
  rewrite batchItems_eq. eexists _, _. split; [reflexivity|].
  repeat split; vm_compute; reflexivity.
Qed.

(** C3 -- In the second variant the call site hands the event, not its
    property mapping, to [getAttribute]: the attribute of a property is
    looked up on the event object.  For the string property
    [$device_id] and the number property [$screen_width] of a page view
    the attribute is [undefined], although [getAttribute] on the
    property mapping gives the string and the number's decimal form;
    [src/index.ts] reads the property mapping but prints a string with
    its JSON quotes. *)
Theorem attribute_read_off_the_event :
  Part0.attributes_of pageview_1 !! "$device_id" = Some None
  /\ Part0.getAttribute (properties pageview_1) "$device_id" = Some "d1"
  /\ Part0.attributes_of pageview_1 !! "$screen_width" = Some None
  /\ Part0.getAttribute (properties pageview_1) "$screen_width" = Some "1024"
  /\ Index.attributes_of pageview_1 !! "$device_id" = Some (Some (json_quote "d1")).
Proof. repeat split; vm_compute; reflexivity. Qed.

(** C5 -- [fillEvents] of [src/index.ts] keys the record of an event by
    its [distinct_id]: the page view with uuid [uuid-1] sent by
    [user-1] has its record under [user-1] and none under [uuid-1]. *)
Theorem index_record_keyed_by_distinct_id :
  (forall (number : Type) (N : JSNumber number) (e : PluginEvent number),
     dom (Index.fillEvents [e]) = ({[ distinct_id e ]} : gset string))
  /\ uuid pageview_1 = Some "uuid-1"
  /\ Index.fillEvents [pageview_1] !! "uuid-1" = None
  /\ is_Some (Index.fillEvents [pageview_1] !! "user-1").
Proof.
  split; [intros; apply Index_fillEvents_dom|].
  split; [reflexivity|]. split.
  - apply not_elem_of_dom. rewrite Index_fillEvents_dom. simpl.
    rewrite elem_of_singleton. discriminate.
  - apply elem_of_dom. rewrite Index_fillEvents_dom. simpl.
    now rewrite elem_of_singleton.
Qed.


(** ... and the entry is the record of the first delivery. *)
Lemma later_record_does_not_overwrite :
  eventKey_at first_delivery sample_world = eventKey_at second_delivery sample_world
  /\ exists obj item r,
       fst (Part0.batchItems [first_delivery; second_delivery] sample_world) = Normal obj
       /\ own obj !! "d1" = Some item
       /\ Events item !! "uuid-1" = Some (EntryEvent r)
       /\ EventType r = "first"
       /\ EventType r <> event second_delivery.
Proof.
  split; [reflexivity|].
  rewrite batchItems_eq. eexists _, _, _. split; [reflexivity|].
  split; [vm_compute; reflexivity|].
  split; [vm_compute; reflexivity|].
  split; [vm_compute; reflexivity|].
  vm_compute. discriminate.
Qed.

(** C7 -- Endpoint last-write-wins.  In the second variant, whenever
    no iteration throws, the dispatcher's [reduce] returns batch items
    in which the endpoint of every item is the endpoint extracted from
    the last event processed under its key.  The step of
    [src/index.ts] assigns the endpoint in the same way, so the same
    holds whenever its [reduce] returns; but on the two page views of
    device [d1] it throws a [TypeError] and yields no batch item,
    where the second variant yields one item with two entries and the
    endpoint of the second page view. *)
Theorem endpoint_last_write_wins :
  (forall (number : Type) (N : JSNumber number)
          (es : list (PluginEvent number)) (w : World number) its,
     iterations es w = Normal its ->
     exists obj,
       fst (Part0.batchItems es w) = Normal obj
       /\ (forall it, it ∈ its -> it_batchKey it <> "__proto__" ->
           is_Some (own obj !! it_batchKey it))
       /\ forall k item,
            own obj !! k = Some item ->
            exists it,
              last (filter (fun it => it_batchKey it = k) its) = Some it
              /\ Part0.getEndpoint (it_event it) = Normal (Endpoint item))
  /\
  (forall (number : Type) (N : JSNumber number)
          (es : list (PluginEvent number)) (w : World number) obj,
     fst (Index.batchItems es w) = Normal obj ->
     exists its,
       index_iterations es w = Normal its
       /\ it_event <$> its = es
       /\ forall k item,
            own obj !! k = Some item ->
            exists it,
              last (filter (fun it => it_batchKey it = k) its) = Some it
              /\ Index.fillEndpoint (it_event it) = Endpoint item)
  /\ fst (Index.batchItems [pageview_1; pageview_2] sample_world) = Throw TypeError
  /\ exists obj item,
       fst (Part0.batchItems [pageview_1; pageview_2] sample_world) = Normal obj
       /\ own obj = {[ "d1" := item ]}
       /\ size (Events item) = 2%nat
       /\ Part0.getEndpoint pageview_2 = Normal (Endpoint item)
       /\ Part0.getEndpoint pageview_1 <> Part0.getEndpoint pageview_2.
Proof.
  split; [intros; now apply Part0_endpoint_last_write_wins|].
  split; [intros; now apply Index_endpoint_last_write_wins|].
  split.
  - rewrite (Index_batchItems_throws pageview_1 [pageview_2] sample_world); [reflexivity|].
    intros k [= <-]. split; [discriminate|reflexivity].
  - rewrite batchItems_eq. eexists _, _. split; [reflexivity|].
    split; [apply map_eq; intros k; destruct (decide (k = "d1")) as [->|Hk]|].
    + vm_compute. reflexivity.
    + rewrite lookup_singleton_ne by congruence.
      cbn [iterations and_then]. simpl. unfold merge_iteration. simpl.
      rewrite !lookup_insert_ne by congruence. apply lookup_empty.
    + split; [vm_compute; reflexivity|]. split; [vm_compute; reflexivity|].
      vm_compute. discriminate.
Qed.

(** ** The theorems at the example events *)


(** The first page view of device [d1] makes [src/index.ts] throw. *)
Lemma index_dispatcher_throws_witness :
  fst (Index.sendToPinpoint [pageview_1; pageview_2] sample_index_config sample_world)
    = Throw TypeError
  /\ submitted (snd (Index.sendToPinpoint [pageview_1; pageview_2] sample_index_config
                       sample_world)) = submitted sample_world
  /\ console (snd (Index.sendToPinpoint [pageview_1; pageview_2] sample_index_config
                     sample_world)) = console sample_world
  /\ fst (Index.onFlush [pageview_1; pageview_2] sample_index_config sample_world)
     = Normal (Throw TypeError).
Proof.
  apply (index_dispatcher_throws pageview_1 [pageview_2] sample_index_config sample_world).
  intros k Hk. injection Hk as <-. split; [discriminate|reflexivity].
Defined.

(** Merging the second delivery into the batch item of the first. *)
Lemma merge_keeps_earlier_record_witness :
  (forall endpoint,
     Part0.getEndpoint second_delivery = Normal endpoint ->
     exists merged,
       Part0.sendToPinpoint_step sample_batch second_delivery sample_world =
         (Normal (object_set sample_batch "d1"
                    {| Endpoint := endpoint; Events := merged |}),
          world_after second_delivery sample_world)
       /\ keeps_earlier (Events sample_earlier) merged
            (eventKey_at second_delivery sample_world)
            (EntryEvent (pinpointEvent_at second_delivery sample_world)))
  /\
  (exists merged,
     fst (Index.sendToPinpoint_step sample_batch second_delivery sample_world) =
       Normal (object_set sample_batch "d1"
                 {| Endpoint := Index.fillEndpoint second_delivery; Events := merged |})
     /\ Index.fillEvents [second_delivery] =
        {[ distinct_id second_delivery := index_record second_delivery ]}
     /\ keeps_earlier (Events sample_earlier) merged
          (distinct_id second_delivery) (EntryEvent (index_record second_delivery))).
Proof.
  apply (merge_keeps_earlier_record sample_batch second_delivery sample_world
           "d1" sample_earlier).
  - reflexivity.
  - vm_compute. reflexivity.
Defined.

(** The two page views give the same batch items now and later. *)
Lemma identified_events_group_deterministically_witness :
  fst (Part0.batchItems [pageview_1; pageview_2] sample_world) =
  fst (Part0.batchItems [pageview_1; pageview_2] later_world)
  /\ fst (Index.batchItems [pageview_1; pageview_2] sample_world) =
     fst (Index.batchItems [pageview_1; pageview_2] later_world)
  /\ (Forall (fun e => converts e = true) [pageview_1; pageview_2] ->
      exists obj, fst (Part0.batchItems [pageview_1; pageview_2] sample_world) = Normal obj).
Proof.
  apply (identified_events_group_deterministically [pageview_1; pageview_2]
           sample_world later_world).
  repeat constructor.
Defined.

(** * Further properties *)

(** ** The list of events to ignore *)

Lemma split_comma_nonempty (s : string) : split_comma s <> [].
Proof.
  destruct s as [|c rest]; simpl; [discriminate|].
  destruct (Ascii.eqb c ","); [discriminate|].
  destruct (split_comma rest); discriminate.
Qed.

Lemma split_comma_app (s1 s2 : string) :
  split_comma (s1 +:+ String "," s2) = (split_comma s1 ++ split_comma s2)%list.
Proof.
  induction s1 as [|c rest IH]; simpl.
  - reflexivity.
  - destruct (Ascii.eqb c ","); [now rewrite IH|].
    rewrite IH. pose proof (split_comma_nonempty rest) as Hne.
    destruct (split_comma rest); [congruence|reflexivity].
Qed.

Lemma split_comma_no_comma (s piece : string) :
  piece ∈ split_comma s -> ~ In ","%char (list_ascii_of_string piece).
Proof.
  revert piece. induction s as [|c rest IH]; intros piece; simpl.
  - rewrite list_elem_of_singleton. intros ->. simpl. tauto.
  - destruct (Ascii.eqb c ",") eqn:Hc.
    + rewrite elem_of_cons. intros [->|Hin]; [simpl; tauto | now apply IH].
    + pose proof (split_comma_nonempty rest) as Hne.
      destruct (split_comma rest) as [|p ps]; [congruence|].
      rewrite elem_of_cons. intros [->|Hin].
      * simpl. intros [Heq|Hin].
        -- subst c. now rewrite Ascii.eqb_refl in Hc.
        -- revert Hin. apply IH. apply elem_of_cons. now left.
      * apply IH. apply elem_of_cons. now right.
Qed.

Lemma trim_start_chars (s : string) (c : ascii) :
  In c (list_ascii_of_string (trim_start s)) -> In c (list_ascii_of_string s).
Proof.
  induction s as [|a rest IH]; simpl; [tauto|].
  destruct (is_whitespace a); [intros Hin; right; now apply IH | simpl; tauto].
Qed.

Lemma trim_end_chars (s : string) (c : ascii) :
  In c (list_ascii_of_string (trim_end s)) -> In c (list_ascii_of_string s).
Proof.
  induction s as [|a rest IH]; simpl; [tauto|].
  destruct (trim_end rest) as [|b kept].
  - destruct (is_whitespace a); simpl; tauto.
  - simpl in *. intros [->|Hin]; [now left | right; now apply IH].
Qed.

Lemma trim_end_idem (s : string) : trim_end (trim_end s) = trim_end s.
Proof.
  induction s as [|a rest IH]; simpl; [reflexivity|].
  destruct (trim_end rest) as [|b kept] eqn:Hrest.
  - destruct (is_whitespace a) eqn:Ha; simpl; [reflexivity | now rewrite Ha].
  - simpl. simpl in IH. now rewrite IH.
Qed.

Lemma trim_start_trimmed (s : string) :
  match trim_start s with
  | EmptyString => True
  | String c _ => is_whitespace c = false
  end.
Proof.
  induction s as [|a rest IH]; simpl; [exact I|].
  destruct (is_whitespace a) eqn:Ha; [exact IH | exact Ha].
Qed.

Lemma trim_start_trim_end (s : string) :
  match s with
  | EmptyString => True
  | String c _ => is_whitespace c = false
  end ->
  trim_start (trim_end s) = trim_end s.
Proof.
  destruct s as [|c rest]; simpl; [reflexivity|]. intros Hc.
  destruct (trim_end rest); rewrite ?Hc; simpl; now rewrite Hc.
Qed.

Lemma trim_idem (s : string) : trim (trim s) = trim s.
Proof.
  unfold trim. rewrite trim_start_trim_end by apply trim_start_trimmed.
  apply trim_end_idem.
Qed.

Lemma elem_of_ignore_set (configured : option string) (name : string) :
  name ∈ ignore_set configured <->
  exists s piece,
    configured = Some s /\ s <> EmptyString /\ piece ∈ split_comma s /\ name = trim piece.
Proof.
  unfold ignore_set. destruct configured as [s|].
  - destruct s as [|c rest]; simpl.
    + rewrite elem_of_empty. split; [tauto|]. intros (s & piece & Hs & Hne & _).
      congruence.
    + rewrite elem_of_list_to_set, list_elem_of_fmap. split.
      * intros (piece & -> & Hin). exists (String c rest), piece. repeat split; auto.
      * intros (s & piece & Hs & _ & Hin & ->). injection Hs as <-. eauto.
  - rewrite elem_of_empty. split; [tauto|]. intros (s & piece & Hs & _). discriminate.
Qed.

(** X1 -- A name on the ignore list is a trimmed piece of the configured
    string: it is its own trimmed form and holds no comma, so an event
    whose name carries surrounding white space or a comma is never
    ignored. *)
Theorem ignored_names_are_trimmed (configured : option string) (name : string) :
  name ∈ ignore_set configured ->
  trim name = name /\ ~ In ","%char (list_ascii_of_string name).
Proof.
  intros (s & piece & _ & _ & Hin & ->)%elem_of_ignore_set. split.
  - apply trim_idem.
  - intros Hcomma. apply (split_comma_no_comma s piece Hin).
    unfold trim in Hcomma. now apply trim_start_chars, trim_end_chars.
Qed.

Lemma ignored_names_are_trimmed_witness :
  "debug" ∈ ignore_set (Some "heartbeat, debug")
  /\ trim "debug" = "debug" /\ ~ In ","%char (list_ascii_of_string "debug").
Proof.
  assert (Hin : "debug" ∈ ignore_set (Some "heartbeat, debug")).
  { apply elem_of_ignore_set. exists "heartbeat, debug", " debug".
    split; [reflexivity|]. split; [discriminate|]. split; [|reflexivity].
    simpl. apply elem_of_cons. right. apply elem_of_cons. now left. }
  split; [exact Hin|].
  exact (ignored_names_are_trimmed (Some "heartbeat, debug") "debug" Hin).
Defined.

(** X2 -- The ignore list of two strings joined by a comma is the union
    of their ignore lists, where an empty side stands for the empty
    name: a leading, trailing or doubled comma puts the empty event
    name on the list. *)
Theorem ignore_set_of_joined (s1 s2 : string) :
  ignore_set (Some (s1 +:+ String "," s2)) =
  (if string_truthy s1 then ignore_set (Some s1) else {[ EmptyString ]})
  ∪ (if string_truthy s2 then ignore_set (Some s2) else {[ EmptyString ]}).
Proof.
  assert (Hpieces : forall s,
    (if string_truthy s then ignore_set (Some s) else {[ EmptyString ]})
    = (list_to_set (trim <$> split_comma s) : gset string)).
  { intros [|c rest]; simpl; [|reflexivity]. set_solver. }
  rewrite !Hpieces. unfold ignore_set.
  replace (string_truthy (s1 +:+ String "," s2)) with true by (now destruct s1).
  now rewrite split_comma_app, fmap_app, list_to_set_app_L.
Qed.

(** ** Setting up *)

(** X3 -- [setupPlugin] succeeds exactly when the four credentials are
    present and non-empty, and otherwise throws a configuration error,
    never anything else; this holds in both variants. *)
Theorem setupPlugin_fails_fast (config : Index.Config) (config' : Part0.Config) :
  match Index.setupPlugin config with
  | Normal _ =>
      config_missing (Index.awsAccessKey config) = false
      /\ config_missing (Index.awsSecretAccessKey config) = false
      /\ config_missing (Index.awsRegion config) = false
      /\ config_missing (Index.applicationId config) = false
  | Throw err =>
      (exists message, err = ConfigError message)
      /\ (config_missing (Index.awsAccessKey config) = true
          \/ config_missing (Index.awsSecretAccessKey config) = true
          \/ config_missing (Index.awsRegion config) = true
          \/ config_missing (Index.applicationId config) = true)
  end
  /\
  match Part0.setupPlugin config' with
  | Normal _ =>
      config_missing (Part0.awsAccessKey config') = false
      /\ config_missing (Part0.awsSecretAccessKey config') = false
      /\ config_missing (Part0.awsRegion config') = false
      /\ config_missing (Part0.applicationId config') = false
  | Throw err =>
      (exists message, err = ConfigError message)
      /\ (config_missing (Part0.awsAccessKey config') = true
          \/ config_missing (Part0.awsSecretAccessKey config') = true
          \/ config_missing (Part0.awsRegion config') = true
          \/ config_missing (Part0.applicationId config') = true)
  end.
Proof.
  unfold Index.setupPlugin, Part0.setupPlugin. split.
  - destruct (config_missing (Index.awsAccessKey config)),
      (config_missing (Index.awsSecretAccessKey config)),
      (config_missing (Index.awsRegion config)),
      (config_missing (Index.applicationId config)); simpl; eauto 10.
  - destruct (config_missing (Part0.awsAccessKey config')),
      (config_missing (Part0.awsSecretAccessKey config')),
      (config_missing (Part0.awsRegion config')),
      (config_missing (Part0.applicationId config')); simpl; eauto 10.
Qed.

(** X4 -- The buffer is created with a size limit that is a whole number
    of mebibytes between 1 and 100 and with a time limit between 1 and
    60 seconds, whatever the configuration says; the second variant
    multiplies its kilobytes setting by 1024 * 1024 as well. *)
Theorem buffer_options_bounds (config : Index.Config) (config' : Part0.Config) :
  match Index.setupPlugin config with
  | Normal options =>
      (exists n, 1 <= n <= 100 /\ limit options = n * 1048576)
      /\ 1 <= timeoutSeconds options <= 60
  | Throw _ => True
  end
  /\
  match Part0.setupPlugin config' with
  | Normal options =>
      (exists n, 1 <= n <= 100 /\ limit options = n * 1048576)
      /\ 1 <= timeoutSeconds options <= 60
  | Throw _ => True
  end.
Proof.
  unfold Index.setupPlugin, Part0.setupPlugin. split.
  - repeat match goal with |- context [if ?c then _ else _] => destruct c; [exact I|] end.
    simpl. split.
    + exists (Index.computed_uploadMegabytes config).
      unfold Index.computed_uploadMegabytes. lia.
    + unfold Index.computed_uploadSeconds. lia.
  - repeat match goal with |- context [if ?c then _ else _] => destruct c; [exact I|] end.
    simpl. split.
    + exists (Part0.computed_uploadKilobytes config').
      unfold Part0.computed_uploadKilobytes. lia.
    + unfold Part0.computed_uploadSeconds. lia.
Qed.

(** ** The dispatcher of the second variant, further *)

Section DispatcherFacts.
Context {number : Type} `{JSNumber number}.
Implicit Types (e : PluginEvent number) (w : World number).
Implicit Types (items : gmap string (EventsBatch number)).
Implicit Types (it : Iteration number) (its : list (Iteration number)).

Lemma size_list_to_set_le (l : list string) :
  (size (list_to_set l : gset string) <= length l)%nat.
Proof.
  induction l as [|x l IH].
  - rewrite list_to_set_nil, size_empty. simpl. lia.
  - rewrite list_to_set_cons, size_union_alt, size_singleton. simpl.
    assert (size ((list_to_set l : gset string) ∖ {[x]}) <= size (list_to_set l : gset string))%nat
      by (apply subseteq_size; set_solver).
    lia.
Qed.

Lemma fold_own_events_lookup its items k ek :
  events_of (fold_left merge_own its items) k !! ek =
  match events_of items k !! ek with
  | Some r => Some r
  | None =>
      (fun it => EntryEvent (it_record it)) <$>
        head (filter (fun it => it_batchKey it = k /\ it_eventKey it = ek) its)
  end.
Proof.
  revert items. induction its as [|it its IH]; intros items; simpl.
  - now destruct (events_of items k !! ek).
  - rewrite IH, events_of_merge_own, filter_cons.
    destruct (decide (it_batchKey it = k)) as [Hk|Hk].
    + rewrite lookup_union. destruct (events_of items k !! ek) as [r|]; simpl.
      * now destruct ({[ it_eventKey it := EntryEvent (it_record it) ]} !! ek).
      * destruct (decide (it_eventKey it = ek)) as [Hek|Hek].
        -- rewrite Hek, lookup_singleton_eq. simpl.
           rewrite decide_True by (split; [exact Hk | reflexivity || exact Hek]). reflexivity.
        -- rewrite lookup_singleton_ne by exact Hek. simpl.
           rewrite decide_False by tauto. reflexivity.
    + rewrite decide_False by tauto. reflexivity.
Qed.

(** A run that returns without meeting the key [__proto__]. *)
Lemma Part0_batchItems_plain es w its :
  iterations es w = Normal its ->
  Forall (fun it => it_batchKey it <> "__proto__") its ->
  Part0.batchItems es w =
  (Normal {| own := fold_left merge_own its ∅; prototype := None |}, world_after_all es w).
Proof.
  intros Hits Hplain. unfold Part0.batchItems.
  rewrite (reduce_sendToPinpoint_world es empty_object w its Hits).
  now rewrite fold_merge_plain.
Qed.

(** X5 -- When no iteration throws and no batch key is [__proto__],
    the dispatcher builds one batch item for each batch key that
    occurs among the events and no other: never more items than
    events, never an empty item, and never more records in an item
    than events were processed under its key. *)
Theorem batch_items_cover_the_events es w its :
  iterations es w = Normal its ->
  Forall (fun it => it_batchKey it <> "__proto__") its ->
  exists obj,
    Part0.batchItems es w = (Normal obj, world_after_all es w)
    /\ prototype obj = None
    /\ dom (own obj) = list_to_set (it_batchKey <$> its)
    /\ (size (own obj) <= length es)%nat
    /\ forall k item,
         own obj !! k = Some item ->
         (1 <= size (Events item)
          <= length (filter (fun it => it_batchKey it = k) its))%nat.
Proof.
  intros Hits Hplain.
  exists {| own := fold_left merge_own its ∅; prototype := None |}.
  split; [now apply Part0_batchItems_plain|]. split; [reflexivity|]. cbn [own].
  assert (Hdom : dom (fold_left merge_own its ∅) = list_to_set (it_batchKey <$> its)).
  { rewrite fold_own_dom, dom_empty_L. apply (left_id_L ∅ (∪)). }
  split; [exact Hdom|]. split.
  - rewrite <- size_dom, Hdom.
    etransitivity; [apply size_list_to_set_le|].
    rewrite length_fmap. now rewrite (iterations_length es w its Hits).
  - intros k item Hitem.
    pose proof (fold_own_events_dom its ∅ k) as Hev.
    unfold events_of at 1 2 in Hev. rewrite Hitem, lookup_empty in Hev. simpl in Hev.
    rewrite dom_empty_L, (left_id_L ∅ (∪)) in Hev.
    rewrite <- size_dom, Hev. split.
    + assert (Hin : k ∈ dom (fold_left merge_own its ∅))
        by (apply elem_of_dom; eauto).
      rewrite Hdom, elem_of_list_to_set, list_elem_of_fmap in Hin.
      destruct Hin as (it & -> & Hin).
      assert (Hek : it_eventKey it ∈
          (list_to_set (it_eventKey <$>
             filter (fun it' => it_batchKey it' = it_batchKey it) its)
           : gset string)).
      { rewrite elem_of_list_to_set. apply list_elem_of_fmap_2.
        apply list_elem_of_filter. split; [reflexivity | exact Hin]. }
      destruct (decide (size (list_to_set (it_eventKey <$>
             filter (fun it' => it_batchKey it' = it_batchKey it) its)
           : gset string) = 0%nat)) as [Hzero|Hpos]; [|lia].
      apply size_empty_inv in Hzero. set_solver.
    + etransitivity; [apply size_list_to_set_le|]. now rewrite length_fmap.
Qed.

(** X6 -- Which record a batch item holds under an event key, in a run
    that throws nothing and meets no key [__proto__]: that of the
    first event processed under the item's batch key and that event
    key, and none when there was no such event.  No record is
    invented, and none is replaced later in the run. *)
Theorem batch_items_hold_first_records es w its :
  iterations es w = Normal its ->
  Forall (fun it => it_batchKey it <> "__proto__") its ->
  exists obj,
    Part0.batchItems es w = (Normal obj, world_after_all es w)
    /\ forall k ek,
         events_of (own obj) k !! ek =
         (fun it => EntryEvent (it_record it)) <$>
           head (filter (fun it => it_batchKey it = k /\ it_eventKey it = ek) its).
Proof.
  intros Hits Hplain.
  exists {| own := fold_left merge_own its ∅; prototype := None |}.
  split; [now apply Part0_batchItems_plain|].
  intros k ek. cbn [own]. rewrite fold_own_events_lookup.
  unfold events_of at 1. now rewrite lookup_empty.
Qed.

Lemma iterations_app es1 es2 w :
  iterations (es1 ++ es2) w =
  try* its1 := iterations es1 w in
  try* its2 := iterations es2 (world_after_all es1 w) in
  Normal (its1 ++ its2)%list.
Proof.
  revert w. induction es1 as [|e es1 IH]; intros w; simpl.
  - now destruct (iterations es2 w).
  - destruct (iteration_at e w) as [it|]; [|reflexivity]. simpl. rewrite IH.
    destruct (iterations es1 (world_after e w)) as [its1|]; [|reflexivity]. simpl.
    now destruct (iterations es2 _).
Qed.

(** X7 -- Dispatching a longer list never loses what a prefix of it
    gave, when the longer run throws nothing and meets no key
    [__proto__]: the shorter run returns as well, every batch key of
    the shorter run is a batch key of the longer one, and every record
    stays under its event key unchanged. *)
Theorem more_events_keep_earlier_records es1 es2 w its :
  iterations (es1 ++ es2) w = Normal its ->
  Forall (fun it => it_batchKey it <> "__proto__") its ->
  exists obj1 obj12,
    fst (Part0.batchItems es1 w) = Normal obj1
    /\ fst (Part0.batchItems (es1 ++ es2) w) = Normal obj12
    /\ dom (own obj1) ⊆ dom (own obj12)
    /\ forall k ek r,
         events_of (own obj1) k !! ek = Some r -> events_of (own obj12) k !! ek = Some r.
Proof.
  intros Hits Hplain. rewrite iterations_app in Hits.
  destruct (iterations es1 w) as [its1|] eqn:Hits1; [|discriminate]. simpl in Hits.
  destruct (iterations es2 (world_after_all es1 w)) as [its2|] eqn:Hits2; [|discriminate].
  injection Hits as <-. apply Forall_app in Hplain as [Hplain1 Hplain2].
  exists {| own := fold_left merge_own its1 ∅; prototype := None |},
         {| own := fold_left merge_own (its1 ++ its2) ∅; prototype := None |}.
  split; [now rewrite (Part0_batchItems_plain es1 w its1)|]. split.
  - rewrite (Part0_batchItems_plain (es1 ++ es2) w (its1 ++ its2)); [reflexivity| |].
    + rewrite iterations_app, Hits1. simpl. now rewrite Hits2.
    + apply Forall_app. now split.
  - cbn [own]. rewrite fold_left_app. split.
    + rewrite (fold_own_dom its2). set_solver.
    + intros k ek r Hr. now apply fold_own_events_keep.
Qed.

Lemma iterations_elem es w its it :
  iterations es w = Normal its -> it ∈ its ->
  exists w1, iteration_at (it_event it) w1 = Normal it /\ it_event it ∈ es.
Proof.
  revert w its. induction es as [|e es IH]; intros w its; simpl.
  - intros [= <-] Hin. now apply elem_of_nil in Hin.
  - destruct (iteration_at e w) as [it0|] eqn:Hit; [|discriminate]. simpl.
    destruct (iterations es (world_after e w)) as [rest|] eqn:Hrest; [|discriminate].
    simpl. intros [= <-]. rewrite elem_of_cons. intros [->|Hin].
    + exists w. rewrite (iteration_at_event e w it0 Hit). split; [exact Hit|].
      apply elem_of_cons. now left.
    + destruct (IH _ _ Hrest Hin) as (w1 & Hw1 & Hes). exists w1. split; [exact Hw1|].
      apply elem_of_cons. now right.
Qed.

(** X8 -- In a run that throws nothing, the endpoint of a batch item
    is that of an event of the list.  It is empty exactly when that
    event -- the last one processed under the key -- has no device id;
    when it is filled, the batch key is the device id of that event as
    a property key, and address, request id and effective date are
    its site url, uuid and timestamp. *)
Theorem batch_item_endpoints es w its :
  iterations es w = Normal its ->
  exists obj,
    Part0.batchItems es w = (Normal obj, world_after_all es w)
    /\ forall k item,
         own obj !! k = Some item ->
         exists e,
           e ∈ es
           /\ Part0.getEndpoint e = Normal (Endpoint item)
           /\ match Endpoint item with
              | EmptyEndpoint => truthy (prop e "$device_id") = false
              | FilledEndpoint r =>
                  truthy (prop e "$device_id") = true
                  /\ ToString (prop e "$device_id") = Normal k
                  /\ Address r = site_url e
                  /\ RequestId r = uuid e
                  /\ EffectiveDate r = timestamp e
              end.
Proof.
  intros Hits. exists (fold_left merge_iteration its empty_object).
  split; [now apply reduce_sendToPinpoint_world|].
  intros k item Hitem.
  destruct (fold_merge_last_endpoint its k item Hitem) as (it & Hlast & Hend).
  assert (Hin : it ∈ filter (fun it => it_batchKey it = k) its).
  { apply last_Some in Hlast as [l' ->]. apply elem_of_app. right. apply elem_of_cons. now left. }
  apply list_elem_of_filter in Hin as [Hk Hin].
  destruct (iterations_elem es w its it Hits Hin) as (w1 & Hit & Hes).
  exists (it_event it). split; [exact Hes|].
  rewrite Hend. clear Hend Hitem Hlast.
  revert Hit. unfold iteration_at, batchKeyValue_at.
  destruct (Part0.getEndpoint (it_event it)) as [endpoint|] eqn:Hendpoint; [|discriminate].
  cbn [and_then].
  destruct (ToString _) as [key|] eqn:Hkey; [|discriminate]. cbn [and_then].
  intros Heq. injection Heq as Heq.
  assert (Hfields : it_endpoint it = endpoint /\ it_batchKey it = key)
    by (split; [apply (f_equal it_endpoint) in Heq | apply (f_equal it_batchKey) in Heq];
        simpl in Heq; congruence).
  clear Heq. destruct Hfields as [-> Hbatch]. split; [reflexivity|].
  revert Hendpoint Hkey. unfold Part0.getEndpoint.
  destruct (truthy (prop (it_event it) "$device_id")) eqn:Hdev.
  - repeat match goal with
           | |- context [and_then ?c _] => destruct c; cbn [and_then]; [|discriminate]
           end.
    intros [= <-] Hkey. repeat split; try reflexivity. congruence.
  - now intros [= <-] _.
Qed.

(** No event has the batch key [__proto__] unless its device id
    converts to that name. *)
Lemma plain_keys es w its :
  Forall (fun e => ToString (prop e "$device_id") <> Normal "__proto__") es ->
  iterations es w = Normal its ->
  Forall (fun it => it_batchKey it <> "__proto__") its.
Proof.
  intros Hplain Hits. apply Forall_forall. intros it Hin Heq.
  destruct (iterations_elem es w its it Hits Hin) as (w1 & Hit & Hes).
  rewrite Forall_forall in Hplain. pose proof (Hplain _ Hes) as Hkey.
  revert Hit. unfold iteration_at, batchKeyValue_at.
  destruct (Part0.getEndpoint (it_event it)); [|discriminate]. cbn [and_then].
  destruct (truthy (prop (it_event it) "$device_id")).
  - destruct (ToString (prop (it_event it) "$device_id")) as [key|] eqn:Hk; [|discriminate].
    cbn [and_then]. intros Hit. injection Hit as Hit.
    apply (f_equal it_batchKey) in Hit. simpl in Hit. congruence.
  - cbn [ToString and_then]. intros Hit. injection Hit as Hit.
    apply (f_equal it_batchKey) in Hit. simpl in Hit.
    apply (pretty_Z_plain (random_draws w1 (draws_taken w1))). congruence.
Qed.

(** *** What a run consumes *)

Lemma world_after_counters e w :
  draws_taken (world_after e w) =
    (draws_taken w + if truthy (prop e "$device_id") then 0 else 1)%nat
  /\ uuids_taken (world_after e w) =
    (uuids_taken w + match uuid e with Some _ => 0 | None => 1 end)%nat
  /\ clock_reads (world_after e w) =
    (clock_reads w + if from_option string_truthy false (timestamp e) then 0 else 1)%nat.
Proof.
  unfold world_after, Part0.batchKey_of, Part0.getEvents, Part0.getEvents_step.
  simpl.
  destruct (truthy (prop e "$device_id")), (uuid e) as [u|], (timestamp e) as [t|];
    simpl; try destruct (string_truthy t);
    cbn; repeat split; lia.
Qed.

Lemma world_after_all_counters es w :
  draws_taken (world_after_all es w) =
    (draws_taken w
     + length (filter (fun e => truthy (prop e "$device_id") = false) es))%nat
  /\ uuids_taken (world_after_all es w) =
    (uuids_taken w + length (filter (fun e => uuid e = None) es))%nat
  /\ clock_reads (world_after_all es w) =
    (clock_reads w
     + length (filter (fun e => from_option string_truthy false (timestamp e) = false)
                 es))%nat.
Proof.
  revert w. induction es as [|e es IH]; intros w; simpl.
  - repeat split; lia.
  - destruct (IH (world_after e w)) as (Hd & Hu & Hc).
    destruct (world_after_counters e w) as (Hd1 & Hu1 & Hc1).
    rewrite Hd, Hu, Hc, Hd1, Hu1, Hc1, !filter_cons.
    destruct (truthy (prop e "$device_id")), (uuid e) as [u|],
      (from_option string_truthy false (timestamp e));
      repeat case_decide; try congruence; simpl; repeat split; lia.
Qed.

(** X9 -- What building the batch items consumes when every event
    converts: one random draw for each event without a device id, one
    generated id for each event without a uuid, one reading of the
    clock for each event without a usable timestamp, and nothing
    more. *)
Theorem batch_items_consumption es w :
  Forall (fun e => converts e = true) es ->
  exists obj w',
    Part0.batchItems es w = (Normal obj, w')
    /\ draws_taken w' =
       (draws_taken w
        + length (filter (fun e => truthy (prop e "$device_id") = false) es))%nat
    /\ uuids_taken w' =
       (uuids_taken w + length (filter (fun e => uuid e = None) es))%nat
    /\ clock_reads w' =
       (clock_reads w
        + length (filter (fun e => from_option string_truthy false (timestamp e) = false)
                    es))%nat.
Proof.
  intros Hall. apply (iterations_return es w) in Hall as [its Hits].
  exists (fold_left merge_iteration its empty_object), (world_after_all es w).
  split; [now apply reduce_sendToPinpoint_world|].
  apply world_after_all_counters.
Qed.

End DispatcherFacts.

Section OrderFacts.
Context {number : Type} `{JSNumber number}.
Implicit Types (e : PluginEvent number) (w : World number).
Implicit Types (it : Iteration number) (its : list (Iteration number)).

(** *** The order of the events *)

Lemma identified_iterations_omap es w w0 its :
  Forall (fun e => identified e = true) es ->
  iterations es w = Normal its ->
  its = omap (fun e => match iteration_at e w0 with
                       | Normal it => Some it
                       | Throw _ => None
                       end) es.
Proof.
  intros Hall. revert w its. induction Hall as [|e es He _ IH]; intros w its; simpl.
  - now intros [= <-].
  - rewrite (proj1 (identified_iteration e w w0 He)).
    destruct (iteration_at e w0) as [it|]; [|discriminate]. simpl.
    destruct (iterations es (world_after e w)) as [rest|] eqn:Hrest; [|discriminate].
    simpl. intros [= <-]. f_equal. eauto.
Qed.

Lemma identified_eventKeys es w :
  Forall (fun e => identified e = true) es ->
  eventKeys es w = (fun e => default EmptyString (uuid e)) <$> es.
Proof.
  intros Hall. revert w. induction Hall as [|e es He _ IH]; intros w; simpl.
  - reflexivity.
  - rewrite IH. f_equal. unfold eventKey_at, identified in *.
    apply andb_prop in He as [He _]. apply andb_prop in He as [_ He].
    apply bool_decide_eq_true_1 in He as [u ->]. reflexivity.
Qed.

Lemma filter_same_key_short its k ek :
  NoDup (it_eventKey <$> its) ->
  (length (filter (fun it => it_batchKey it = k /\ it_eventKey it = ek) its) <= 1)%nat.
Proof.
  induction its as [|it its IH]; simpl; [lia|].
  rewrite NoDup_cons. intros [Hnotin Hnodup]. rewrite filter_cons.
  destruct (decide (it_batchKey it = k /\ it_eventKey it = ek)) as [[_ Hek]|_];
    [|now apply IH].
  destruct (filter (fun it' => it_batchKey it' = k /\ it_eventKey it' = ek) its)
    as [|it' rest] eqn:Hfilter; [simpl; lia|].
  exfalso. apply Hnotin.
  assert (Hin : it' ∈ filter (fun it' => it_batchKey it' = k /\ it_eventKey it' = ek) its)
    by (rewrite Hfilter; apply elem_of_cons; now left).
  apply list_elem_of_filter in Hin as [[_ Hek'] Hin].
  rewrite Hek, <- Hek'. now apply list_elem_of_fmap_2.
Qed.

Lemma short_permutation_eq {A : Type} (l1 l2 : list A) :
  l1 ≡ₚ l2 -> (length l1 <= 1)%nat -> l1 = l2.
Proof.
  intros Hperm Hlen. destruct l1 as [|x [|y l1]]; simpl in Hlen; [| |lia].
  - now apply Permutation_nil_l in Hperm.
  - now apply Permutation_singleton_l in Hperm.
Qed.

(** X17 -- For events that carry a device id, a uuid and a timestamp,
    with pairwise distinct uuids, that all convert and none of which
    has the batch key [__proto__], the order of the list decides
    nothing but the endpoints: any reordering, in any world, gives
    batch items for the same batch keys holding the same records. *)
Theorem reordering_keeps_records es es' w w' :
  es ≡ₚ es' ->
  Forall (fun e => identified e = true) es ->
  Forall (fun e => converts e = true) es ->
  Forall (fun e => ToString (prop e "$device_id") <> Normal "__proto__") es ->
  NoDup (uuid <$> es) ->
  exists obj obj',
    fst (Part0.batchItems es w) = Normal obj
    /\ fst (Part0.batchItems es' w') = Normal obj'
    /\ prototype obj = None /\ prototype obj' = None
    /\ dom (own obj) = dom (own obj')
    /\ forall k, events_of (own obj) k = events_of (own obj') k.
Proof.
  intros Hperm Hall Hconv Hplain Hnodup.
  assert (Hall' : Forall (fun e => identified e = true) es') by now rewrite <- Hperm.
  assert (Hconv' : Forall (fun e => converts e = true) es') by now rewrite <- Hperm.
  destruct (proj1 (iterations_return es w) Hconv) as [its Hits].
  destruct (proj1 (iterations_return es' w') Hconv') as [its' Hits'].
  assert (Hkeys : NoDup (it_eventKey <$> its)).
  { rewrite (iterations_eventKeys es w its Hits), identified_eventKeys by exact Hall.
    replace ((fun e => default EmptyString (uuid e)) <$> es)
      with (default EmptyString <$> (uuid <$> es))
      by (now rewrite <- list_fmap_compose).
    apply NoDup_fmap_2_strong; [|exact Hnodup].
    intros x y Hx Hy Hxy.
    apply list_elem_of_fmap in Hx as (ex & -> & Hex), Hy as (ey & -> & Hey).
    rewrite Forall_forall in Hall.
    pose proof (Hall ex Hex) as Hidx. pose proof (Hall ey Hey) as Hidy.
    unfold identified in Hidx, Hidy.
    apply andb_prop in Hidx as [Hidx _], Hidy as [Hidy _].
    apply andb_prop in Hidx as [_ Hidx], Hidy as [_ Hidy].
    apply bool_decide_eq_true_1 in Hidx as [ux Hux], Hidy as [uy Huy].
    rewrite Hux, Huy in *. simpl in Hxy. now subst. }
  assert (Hplain' : Forall (fun e => ToString (prop e "$device_id") <> Normal "__proto__") es')
    by now rewrite <- Hperm.
  exists {| own := fold_left merge_own its ∅; prototype := None |},
         {| own := fold_left merge_own its' ∅; prototype := None |}.
  rewrite (Part0_batchItems_plain es w its Hits) by eauto using plain_keys.
  rewrite (Part0_batchItems_plain es' w' its' Hits') by eauto using plain_keys.
  split; [reflexivity|]. split; [reflexivity|]. split; [reflexivity|].
  split; [reflexivity|]. cbn [own].
  rewrite (identified_iterations_omap es w w its Hall Hits) in *.
  rewrite (identified_iterations_omap es' w' w its' Hall' Hits').
  set (f := fun e => match iteration_at e w with Normal it => Some it | Throw _ => None end)
    in *.
  assert (Hperm_its : omap f es ≡ₚ omap f es') by now rewrite Hperm.
  split.
  - rewrite !fold_own_dom. f_equal. apply list_to_set_perm_L. now rewrite Hperm_its.
  - intros k. apply map_eq. intros ek. rewrite !fold_own_events_lookup.
    unfold events_of. rewrite !lookup_empty. simpl. rewrite !lookup_empty.
    f_equal. f_equal. apply short_permutation_eq.
    + now rewrite Hperm_its.
    + now apply filter_same_key_short.
Qed.

(** *** Hooks and flushes *)

Lemma single_iteration_items it :
  merge_iteration empty_object it =
  object_set empty_object (it_batchKey it) {|
    Endpoint := it_endpoint it;
    Events := {[ it_eventKey it := EntryEvent (it_record it) ]} |}.
Proof.
  unfold merge_iteration. f_equal. f_equal.
  unfold object_get, empty_object. cbn [own prototype]. rewrite lookup_empty.
  destruct (String.eqb (it_batchKey it) "__proto__"); cbn [Events_of].
  - apply spread_empty.
  - destruct (inherited_function (it_batchKey it)); cbn [Events_of]; [apply spread_empty|].
    reflexivity.
Qed.

(** X10 -- The event hooks of the second variant: an ignored event
    leaves no trace at all; for any other event the hook returns
    normally, whatever happens to the dispatch.  When the endpoint and
    the batch key of the event convert, the event is submitted at
    once, in a command of its own that holds one batch item with one
    record (or, under the key [__proto__], none); when they do not,
    nothing is submitted.  [onEvent] and [onSnapshot] do the same. *)
Theorem hooks_dispatch_one_event (ignored : gset string) e (config : Part0.Config) w :
  if bool_decide (event e ∈ ignored) then
    Part0.onEvent ignored e config w = (Normal tt, w)
    /\ Part0.onSnapshot ignored e config w = (Normal (Normal tt), w)
  else
    exists w',
      Part0.onEvent ignored e config w = (Normal tt, w')
      /\ Part0.onSnapshot ignored e config w = (Normal (Normal tt), w')
      /\ if converts e then
           exists endpoint k,
             Part0.getEndpoint e = Normal endpoint
             /\ ToString (batchKeyValue_at e w) = Normal k
             /\ submitted w' =
                (submitted w ++ [{|
                   ApplicationId := Part0.applicationId config;
                   BatchItem := object_set empty_object k {|
                     Endpoint := endpoint;
                     Events := {[ eventKey_at e w :=
                                    EntryEvent (pinpointEvent_at e w) ]} |} |}])%list
         else submitted w' = submitted w.
Proof.
  unfold Part0.onEvent, Part0.onSnapshot, async.
  destruct (bool_decide (event e ∈ ignored)); simpl; [split; reflexivity|].
  destruct (converts e) eqn:Hconv.
  - destruct (converts_iteration e w Hconv) as [it Hit].
    assert (Hits : iterations [e] w = Normal [it]) by (simpl; now rewrite Hit).
    destruct (Part0_sendToPinpoint_fulfilled [e] config w [it] Hits) as (w' & Hrun & Hsub & _).
    exists w'. erewrite !bind_normal by exact Hrun.
    split; [reflexivity|]. split; [reflexivity|].
    revert Hit. unfold iteration_at.
    destruct (Part0.getEndpoint e) as [endpoint|]; [|discriminate]. cbn [and_then].
    destruct (ToString (batchKeyValue_at e w)) as [k|]; [|discriminate]. cbn [and_then].
    intros [= <-]. exists endpoint, k. split; [reflexivity|]. split; [reflexivity|].
    rewrite Hsub. cbn [fold_left]. now rewrite single_iteration_items.
  - assert (Hthrow : exists err, iterations [e] w = Throw err).
    { simpl. destruct (iteration_at e w) as [it|err] eqn:Hit; [|eauto].
      apply iteration_converts in Hit. congruence. }
    destruct Hthrow as [err Hits].
    destruct (Part0_sendToPinpoint_rejected [e] config w err Hits) as (w' & Hrun & Hsub & _).
    exists w'. erewrite !bind_normal by exact Hrun.
    split; [reflexivity|]. split; [reflexivity|]. exact Hsub.
Qed.

(** X11 -- The flush callback of the second variant first logs the
    flushed list; when the list does not print (an event with a member
    named [toString]) the promise is rejected and nothing else
    happens.  Otherwise the promise is fulfilled: for an empty list
    the log line is all, and for any other list one command is
    submitted, holding the batch items of the whole list -- or none,
    when the dispatch throws. *)
Theorem flush_submits_once (es : list (PluginEvent number)) (config : Part0.Config) w :
  match ToString (VArr ((fun e => VObj (PluginEvent_members e)) <$> es)) with
  | Throw err => Part0.onFlush es config w = (Normal (Throw err), w)
  | Normal _ =>
      let w1 := snd (log (info_Buffer_flushed es) w) in
      exists w',
        Part0.onFlush es config w = (Normal (Normal tt), w')
        /\ head (drop (length (console w)) (console w')) = Some (info_Buffer_flushed es)
        /\ match es with
           | [] =>
               submitted w' = submitted w
               /\ console w' = (console w ++ [info_Buffer_flushed es])%list
           | _ :: _ =>
               match fst (Part0.batchItems es w1) with
               | Normal obj =>
                   submitted w' =
                   (submitted w ++ [{| ApplicationId := Part0.applicationId config;
                                       BatchItem := obj |}])%list
               | Throw _ => submitted w' = submitted w
               end
           end
  end.
Proof.
  unfold Part0.onFlush, async.
  destruct (ToString (VArr _)) as [printed|err] eqn:Hprint.
  - cbv zeta. unfold bind at 1, lift at 1.
    destruct es as [|e es].
    + eexists. split; [reflexivity|]. simpl.
      rewrite drop_app_length. repeat split; reflexivity.
    + set (w1 := snd (log (info_Buffer_flushed (e :: es)) w)).
      unfold bind at 1. change (log (info_Buffer_flushed (e :: es)) w) with (Normal tt, w1).
      change (0 <? length (e :: es))%nat with true. cbv iota.
      rewrite batchItems_eq.
      destruct (iterations (e :: es) w1) as [its|err] eqn:Hits.
      * destruct (Part0_sendToPinpoint_fulfilled (e :: es) config w1 its Hits)
          as (w' & Hrun & Hsub & Hcon).
        exists w'. erewrite bind_normal by exact Hrun.
        split; [reflexivity|]. split; [|exact Hsub].
        rewrite Hcon. unfold w1. simpl. rewrite <- (assoc_L (++)).
        rewrite drop_app_length. reflexivity.
      * destruct (Part0_sendToPinpoint_rejected (e :: es) config w1 err Hits)
          as (w' & Hrun & Hsub & logged & _ & Hcon).
        exists w'. erewrite bind_normal by exact Hrun.
        split; [reflexivity|]. split; [|exact Hsub].
        rewrite Hcon. unfold w1. simpl. rewrite <- (assoc_L (++)).
        rewrite drop_app_length. reflexivity.
  - reflexivity.
Qed.

Lemma reduce_getEvents_step_effects (es : list (PluginEvent number))
    (pinpointEvents : gmap string (Event number)) w :
  console (snd (reduce Part0.getEvents_step es pinpointEvents w)) =
    (console w ++ (info_Event <$> es))%list
  /\ uuids_taken (snd (reduce Part0.getEvents_step es pinpointEvents w)) =
    (uuids_taken w + length (filter (fun e => uuid e = None) es))%nat
  /\ clock_reads (snd (reduce Part0.getEvents_step es pinpointEvents w)) =
    (clock_reads w
     + length (filter (fun e => from_option string_truthy false (timestamp e) = false) es))%nat
  /\ draws_taken (snd (reduce Part0.getEvents_step es pinpointEvents w)) = draws_taken w
  /\ submitted (snd (reduce Part0.getEvents_step es pinpointEvents w)) = submitted w.
Proof.
  revert pinpointEvents w. induction es as [|e es IH]; intros pinpointEvents w.
  - simpl. rewrite (right_id_L [] (++)). repeat split; lia.
  - cbn [reduce]. unfold bind.
    assert (Hstep : exists m w1,
      Part0.getEvents_step pinpointEvents e w = (Normal m, w1)
      /\ console w1 = (console w ++ [info_Event e])%list
      /\ uuids_taken w1 = (uuids_taken w + match uuid e with Some _ => 0 | None => 1 end)%nat
      /\ clock_reads w1 =
         (clock_reads w + if from_option string_truthy false (timestamp e) then 0 else 1)%nat
      /\ draws_taken w1 = draws_taken w
      /\ submitted w1 = submitted w).
    { unfold Part0.getEvents_step.
      destruct (uuid e) as [u|], (timestamp e) as [t|]; simpl;
        try destruct (string_truthy t); cbn; eexists _, _;
        (split; [reflexivity|]); cbn; repeat split; lia. }
    destruct Hstep as (m & w1 & -> & Hc & Hu & Hk & Hd & Hs).
    destruct (IH m w1) as (Hc' & Hu' & Hk' & Hd' & Hs').
    rewrite Hc', Hu', Hk', Hd', Hs', Hc, Hu, Hk, Hd, Hs, !filter_cons.
    rewrite fmap_cons, <- (assoc_L (++)). simpl.
    destruct (uuid e) as [u|], (from_option string_truthy false (timestamp e));
      repeat case_decide; try congruence; simpl; repeat split; lia.
Qed.

(** X12 -- [getEvents] keeps the record of the last event only, but it
    has the effects of every event of its list: each is logged, each
    without a uuid takes a generated id, and each without a usable
    timestamp takes a reading of the clock.  It draws no random number
    and submits nothing. *)
Theorem getEvents_effects (es : list (PluginEvent number)) w :
  exists m w',
    Part0.getEvents es w = (Normal m, w')
    /\ console w' = (console w ++ (info_Event <$> es))%list
    /\ uuids_taken w' = (uuids_taken w + length (filter (fun e => uuid e = None) es))%nat
    /\ clock_reads w' =
       (clock_reads w
        + length (filter (fun e => from_option string_truthy false (timestamp e) = false)
                    es))%nat
    /\ draws_taken w' = draws_taken w
    /\ submitted w' = submitted w.
Proof.
  destruct (reduce_getEvents_step es ∅ w) as (m & w' & Hrun & _).
  pose proof (reduce_getEvents_step_effects es ∅ w) as Heff.
  unfold Part0.getEvents. rewrite Hrun in *. exists m, w'. split; [reflexivity|]. exact Heff.
Qed.

(** *** Attributes *)

(** X13 -- Both record builders give an event exactly one attribute for
    each key of its property mapping, no key lost and none added: in
    the second variant it is [getAttribute] of the event object and the
    key, in [src/index.ts] the JSON text of the property. *)
Theorem attributes_keep_property_keys e :
  dom (Part0.attributes_of e) = list_to_set (Object_keys (default [] (properties e)))
  /\ dom (Index.attributes_of e) = list_to_set (Object_keys (default [] (properties e)))
  /\ forall key,
       key ∈ Object_keys (default [] (properties e)) ->
       Part0.attributes_of e !! key =
         Some (Part0.getAttribute (Some (PluginEvent_members e)) key)
       /\ Index.attributes_of e !! key =
         Some (JSON_stringify (member key (default [] (properties e)))).
Proof.
  split; [|split].
  - apply set_eq. intros key. rewrite elem_of_dom, Part0_attributes_of_lookup,
      elem_of_list_to_set.
    destruct (decide (key ∈ Object_keys (default [] (properties e)))) as [Hin|Hnin].
    + split; eauto.
    + split; [intros [x Hx]; discriminate | tauto].
  - apply set_eq. intros key. rewrite elem_of_dom, Index_attributes_of_lookup,
      elem_of_list_to_set.
    destruct (decide (key ∈ Object_keys (default [] (properties e)))) as [Hin|Hnin].
    + split; eauto.
    + split; [intros [x Hx]; discriminate | tauto].
  - intros key Hkey. rewrite Part0_attributes_of_lookup, Index_attributes_of_lookup.
    now rewrite !decide_True by exact Hkey.
Qed.

(** X14 -- [getAttribute], given a property mapping, returns a string
    for every own member but an [undefined] one: a string as it is, a
    number or boolean as printed, anything else as its JSON text.  For
    a key without an own member it returns [undefined], except that
    the key [__proto__] finds the prototype of the mapping and gives
    the text of an empty object. *)
Theorem getAttribute_string_valued
    (properties : option (list (string * value number))) (key : string) :
  (if has_own key (default [] properties) then
     match member key (default [] properties) with
     | VStr s => Part0.getAttribute properties key = Some s
     | VNum n => Part0.getAttribute properties key = Some (number_toString n)
     | VBool b => Part0.getAttribute properties key = Some (bool_toString b)
     | VUndefined => Part0.getAttribute properties key = None
     | v => Part0.getAttribute properties key = JSON_stringify v
            /\ is_Some (JSON_stringify v)
     end
   else
     Part0.getAttribute properties key =
     if String.eqb key "__proto__" then Some "{}" else None)
  /\ (Part0.getAttribute properties key = None ->
      member key (default [] properties) = VUndefined).
Proof.
  unfold Part0.getAttribute, Get. split.
  - destruct (has_own key (default [] properties)).
    + destruct (member key (default [] properties)); simpl; eauto.
    + destruct (String.eqb key "__proto__"); [reflexivity|].
      now destruct (inherited_function key).
  - destruct (has_own key (default [] properties)) eqn:Hown.
    + destruct (member key (default [] properties)); simpl; try discriminate; reflexivity.
    + intros _. clear -Hown. unfold has_own in Hown.
      induction (default [] properties) as [|[k v] l IH]; [reflexivity|].
      simpl in *. apply orb_false_elim in Hown as [Hk Hl].
      rewrite Hk. now apply IH.
Qed.

Lemma json_escape_length (c : ascii) : (1 <= String.length (json_escape c))%nat.
Proof.
  unfold json_escape.
  repeat match goal with |- context [if ?c then _ else _] => destruct c end; simpl; lia.
Qed.

Lemma length_append (s1 s2 : string) :
  String.length (s1 +:+ s2) = (String.length s1 + String.length s2)%nat.
Proof. induction s1 as [|c s1 IH]; simpl; [reflexivity | now rewrite IH]. Qed.

Lemma json_escape_all_length (s : string) :
  (String.length s <= String.length (json_escape_all s))%nat.
Proof.
  induction s as [|c s IH]; simpl; [lia|].
  rewrite length_append. pose proof (json_escape_length c). lia.
Qed.

(** X15 -- In [src/index.ts] a string property never passes through
    unchanged: its attribute is the property's JSON text, which is at
    least two characters longer than the string. *)
Theorem index_string_attribute_is_quoted e (key s : string) :
  key ∈ Object_keys (default [] (properties e)) ->
  member key (default [] (properties e)) = VStr s ->
  exists text,
    Index.attributes_of e !! key = Some (Some text)
    /\ (String.length s + 2 <= String.length text)%nat
    /\ text <> s.
Proof.
  intros Hkey Hs. rewrite Index_attributes_of_lookup, decide_True by exact Hkey.
  rewrite Hs. simpl. eexists. split; [reflexivity|].
  assert (Hlen : (String.length s + 2 <= String.length (json_quote s))%nat).
  { unfold json_quote. simpl. rewrite length_append. simpl.
    pose proof (json_escape_all_length s). lia. }
  split; [exact Hlen|]. intros Heq. rewrite Heq in Hlen. lia.
Qed.

(** *** Endpoints *)




(** X18 -- [sendToPinpoint] of the second variant never throws at its
    caller.  When no iteration throws, it fulfils its promise whatever
    the client replies, and submits exactly one command; a failed
    submission shows on the console only: one error line, after the
    lines of the events and before the two lines that report the
    upload and the response -- which are printed after a failure as
    well.  When an iteration throws, the promise is rejected with that
    error, nothing is submitted, and only events up to the failing one
    are logged. *)
Theorem submission_outcome_is_logged (es : list (PluginEvent number))
    (config : Part0.Config) (w : World number) :
  match fst (Part0.batchItems es w) with
  | Normal obj =>
      let command := {| ApplicationId := Part0.applicationId config; BatchItem := obj |} in
      let reply := pinpoint w (length (submitted w)) command in
      exists w',
        Part0.sendToPinpoint es config w = (Normal (Normal tt), w')
        /\ submitted w' = (submitted w ++ [command])%list
        /\ console w' =
           (console w ++ (info_Event <$> es)
            ++ match reply_err reply with
               | Some message => [error_Error_sending message command]
               | None => []
               end
            ++ [info_Uploaded (length es) (Part0.applicationId config);
                info_Response (reply_data reply)])%list
  | Throw err =>
      exists w',
        Part0.sendToPinpoint es config w = (Normal (Throw err), w')
        /\ submitted w' = submitted w
        /\ exists logged,
             logged `prefix_of` es
             /\ console w' = (console w ++ (info_Event <$> logged))%list
  end.
Proof.
  rewrite batchItems_eq.
  destruct (iterations es w) as [its|err] eqn:Hits; cbn [and_then].
  - exact (Part0_sendToPinpoint_fulfilled es config w its Hits).
  - exact (Part0_sendToPinpoint_rejected es config w err Hits).
Qed.

End OrderFacts.

(** ** Reading the configuration *)

Lemma parseInt_pretty_small (n : Z) : 0 <= n <= 100 -> parseInt (pretty n) = Some n.
Proof.
  intros Hn.
  assert (Hall : forallb (fun k => match parseInt (pretty k) with
                                   | Some m => m =? k
                                   | None => false
                                   end) (seqZ 0 101) = true)
    by (vm_compute; reflexivity).
  rewrite forallb_forall in Hall.
  specialize (Hall n). rewrite <- list_elem_of_In, elem_of_seqZ in Hall.
  specialize (Hall ltac:(lia)).
  destruct (parseInt (pretty n)) as [m|]; [|discriminate].
  apply Z.eqb_eq in Hall. now subst.
Qed.

(** X19 -- A setting written as a decimal number within its range is
    used as it is: from 1 to 100 for the size limit, from 1 to 60 for
    the upload interval, in both variants. *)
Theorem configured_decimal_is_used (config : Index.Config) (config' : Part0.Config) (n : Z) :
  (Index.uploadMegabytes config = Some (pretty n) -> 1 <= n <= 100 ->
   Index.computed_uploadMegabytes config = n)
  /\ (Index.uploadSeconds config = Some (pretty n) -> 1 <= n <= 60 ->
      Index.computed_uploadSeconds config = n)
  /\ (Part0.uploadKilobytes config' = Some (pretty n) -> 1 <= n <= 100 ->
      Part0.computed_uploadKilobytes config' = n)
  /\ (Part0.uploadSeconds config' = Some (pretty n) -> 1 <= n <= 60 ->
      Part0.computed_uploadSeconds config' = n).
Proof.
  unfold Index.computed_uploadMegabytes, Index.computed_uploadSeconds,
    Part0.computed_uploadKilobytes, Part0.computed_uploadSeconds, parseInt_config.
  repeat split; intros -> Hn; simpl; rewrite parseInt_pretty_small by lia;
    unfold number_or; destruct (n =? 0) eqn:Hzero; lia.
Qed.

(** The upload interval of the sample configuration is the 30 it says. *)
Lemma configured_decimal_is_used_witness :
  Index.uploadSeconds sample_index_config = Some (pretty 30)
  /\ 1 <= 30 <= 60
  /\ Index.computed_uploadSeconds sample_index_config = 30.
Proof.
  assert (Hset : Index.uploadSeconds sample_index_config = Some (pretty 30))
    by (vm_compute; reflexivity).
  assert (Hrange : 1 <= 30 <= 60) by lia.
  split; [exact Hset|]. split; [exact Hrange|].
  exact (proj1 (proj2 (configured_decimal_is_used sample_index_config sample_config 30))
           Hset Hrange).
Defined.

(** ** Keys that name inherited members *)

Section InheritedKeys.
Context {number : Type} `{JSNumber number}.
Implicit Types (e : PluginEvent number) (w : World number).
Implicit Types (it : Iteration number) (its : list (Iteration number)).

(** X20 -- The reduce of the second variant returns exactly when every
    event converts: when the endpoint of each is extracted and the
    device id of each, if any, converts to a property key.  Nothing
    else makes it throw. *)
Theorem dispatch_returns_iff_converts (es : list (PluginEvent number)) w :
  is_Normal (fst (Part0.batchItems es w)) = forallb converts es.
Proof.
  rewrite batchItems_eq.
  destruct (forallb converts es) eqn:Hall.
  - assert (Hforall : Forall (fun e => converts e = true) es).
    { apply Forall_forall. intros e He. rewrite forallb_forall in Hall.
      apply Hall. now apply list_elem_of_In. }
    apply (iterations_return es w) in Hforall as [its ->]. reflexivity.
  - destruct (iterations es w) as [its|] eqn:Hits; [|reflexivity].
    assert (Hforall : Forall (fun e => converts e = true) es)
      by (apply (iterations_return es w); eauto).
    assert (Htrue : forallb converts es = true).
    { apply forallb_forall. intros e He. rewrite Forall_forall in Hforall.
      apply Hforall. now apply list_elem_of_In. }
    congruence.
Qed.

Lemma fold_merge_proto its (batchEvents : BatchObject number) :
  own batchEvents !! "__proto__" = None ->
  Forall (fun it => it_batchKey it = "__proto__") its ->
  own (fold_left merge_iteration its batchEvents) = own batchEvents
  /\ (its <> [] -> is_Some (prototype (fold_left merge_iteration its batchEvents))).
Proof.
  intros Hnone Hall. induction its as [|it its IH] using rev_ind.
  - split; [reflexivity|congruence].
  - apply Forall_app in Hall as [Hits Hit]. inversion Hit as [|? ? Hkey _]; subst.
    destruct (IH Hits) as [Hown _].
    rewrite fold_merge_snoc. set (acc := fold_left merge_iteration its batchEvents) in *.
    unfold merge_iteration, object_set. rewrite Hkey.
    destruct (bool_decide (is_Some (own acc !! "__proto__"))) eqn:Hsome.
    + apply bool_decide_eq_true_1 in Hsome. rewrite Hown, Hnone in Hsome.
      destruct Hsome as [x Hx]. discriminate.
    + simpl. split; [exact Hown|eauto].
Qed.

(** X21 -- The device id [__proto__] gives no batch item: in a run of
    the second variant over events that all carry a device id that
    converts to that name, the assignment installs the item as the
    prototype of the dictionary, which keeps having no member, so the
    command carries an empty [BatchItem] mapping. *)
Theorem proto_device_gives_no_item (es : list (PluginEvent number)) w :
  es <> [] ->
  Forall (fun e => truthy (prop e "$device_id") = true) es ->
  Forall (fun e => ToString (prop e "$device_id") = Normal "__proto__") es ->
  Forall (fun e => is_Normal (Part0.getEndpoint e) = true) es ->
  exists obj,
    fst (Part0.batchItems es w) = Normal obj
    /\ own obj = ∅
    /\ is_Some (prototype obj).
Proof.
  intros Hne Hdevices Hkeys Hendpoints.
  assert (Hks : Forall2 (fun e k => ToString (prop e "$device_id") = Normal k) es
                  (replicate (length es) "__proto__")).
  { clear -Hkeys. induction Hkeys; simpl; constructor; auto. }
  destruct (proj1 (iterations_return es w) (device_events_convert es _ Hendpoints Hks))
    as [its Hits].
  pose proof (iterations_device_keys es w its _ Hdevices Hks Hits) as Hbatch.
  destruct (fold_merge_proto its empty_object) as [Hown Hproto].
  { apply lookup_empty. }
  { eapply shared_fmap. exact Hbatch. }
  exists (fold_left merge_iteration its empty_object).
  split; [now rewrite batchItems_eq, Hits|]. split; [exact Hown|].
  apply Hproto. intros ->. destruct es; [congruence|discriminate].
Qed.

(** X22 -- In [src/index.ts] a list whose first event has no device id
    is never dispatched: the drawn batch key is a numeral, which names
    nothing in the empty dictionary, so the first iteration throws a
    [TypeError] and nothing is submitted. *)
Theorem index_unidentified_event_throws e (es : list (PluginEvent number))
    (config : Index.Config) w :
  truthy (prop e "$device_id") = false ->
  fst (Index.batchItems (e :: es) w) = Throw TypeError
  /\ fst (Index.sendToPinpoint (e :: es) config w) = Throw TypeError
  /\ submitted (snd (Index.sendToPinpoint (e :: es) config w)) = submitted w.
Proof.
  intros Hdevice.
  assert (Hrun : Index.batchItems (e :: es) w = (Throw TypeError, index_world_after e w)).
  { apply Index_batchItems_throws. intros k. now apply drawn_key_names_nothing. }
  split; [now rewrite Hrun|].
  destruct (Index_batchKey_of_fields e w) as [_ Hs].
  unfold Index.sendToPinpoint. erewrite bind_throw by exact Hrun.
  split; [reflexivity|exact Hs].
Qed.

End InheritedKeys.

(** ** The further theorems at the example events *)

(** The device id of the first page view, in [src/index.ts]. *)
Lemma index_string_attribute_is_quoted_witness :
  "$device_id" ∈ Object_keys (default [] (properties pageview_1))
  /\ member "$device_id" (default [] (properties pageview_1)) = VStr "d1"
  /\ exists text,
       Index.attributes_of pageview_1 !! "$device_id" = Some (Some text)
       /\ (String.length "d1" + 2 <= String.length text)%nat
       /\ text <> "d1".
Proof.
  assert (Hkey : "$device_id" ∈ Object_keys (default [] (properties pageview_1)))
    by (simpl; apply elem_of_cons; now left).
  assert (Hval : member "$device_id" (default [] (properties pageview_1)) = VStr "d1")
    by reflexivity.
  split; [exact Hkey|]. split; [exact Hval|].
  exact (index_string_attribute_is_quoted pageview_1 "$device_id" "d1" Hkey Hval).
Defined.

(** The run over the two page views of device [d1]. *)
Lemma two_pageviews_run :
  exists its,
    iterations [pageview_1; pageview_2] sample_world = Normal its
    /\ Forall (fun it => it_batchKey it <> "__proto__") its
    /\ it_batchKey <$> its = ["d1"; "d1"]
    /\ it_eventKey <$> its = ["uuid-1"; "uuid-2"].
Proof.
  destruct (proj1 (iterations_return [pageview_1; pageview_2] sample_world)
              ltac:(repeat constructor)) as [its Hits].
  exists its. split; [exact Hits|]. split; [|split].
  - apply (plain_keys [pageview_1; pageview_2] sample_world its); [|exact Hits].
    repeat constructor; discriminate.
  - apply (iterations_device_keys [pageview_1; pageview_2] sample_world its);
      [repeat constructor..|exact Hits].
  - now rewrite (iterations_eventKeys _ _ _ Hits).
Qed.

(** The two page views of one device, in either order. *)
Lemma reordering_keeps_records_witness :
  [pageview_1; pageview_2] ≡ₚ [pageview_2; pageview_1]
  /\ exists obj obj',
       fst (Part0.batchItems [pageview_1; pageview_2] sample_world) = Normal obj
       /\ fst (Part0.batchItems [pageview_2; pageview_1] later_world) = Normal obj'
       /\ prototype obj = None /\ prototype obj' = None
       /\ dom (own obj) = dom (own obj')
       /\ forall k, events_of (own obj) k = events_of (own obj') k.
Proof.
  assert (Hperm : [pageview_1; pageview_2] ≡ₚ [pageview_2; pageview_1])
    by apply Permutation_swap.
  split; [exact Hperm|].
  apply (reordering_keeps_records [pageview_1; pageview_2] [pageview_2; pageview_1]
           sample_world later_world Hperm).
  - repeat constructor.
  - repeat constructor.
  - repeat constructor; discriminate.
  - simpl. apply NoDup_cons. split; [|apply NoDup_singleton].
    rewrite list_elem_of_singleton. discriminate.
Defined.

(** The batch item of device [d1] after the two page views. *)
Lemma batch_items_cover_the_events_witness :
  exists its obj item,
    iterations [pageview_1; pageview_2] sample_world = Normal its
    /\ Part0.batchItems [pageview_1; pageview_2] sample_world =
       (Normal obj, world_after_all [pageview_1; pageview_2] sample_world)
    /\ own obj !! "d1" = Some item
    /\ (1 <= size (Events item)
        <= length (filter (fun it => it_batchKey it = "d1") its))%nat.
Proof.
  destruct two_pageviews_run as (its & Hits & Hplain & Hkeys & _).
  destruct (batch_items_cover_the_events [pageview_1; pageview_2] sample_world its
              Hits Hplain) as (obj & Hrun & _ & Hdom & _ & Hitems).
  assert (Hin : "d1" ∈ dom (own obj)).
  { rewrite Hdom, Hkeys, elem_of_list_to_set. apply elem_of_cons. now left. }
  apply elem_of_dom in Hin as [item Hitem].
  exists its, obj, item. split; [exact Hits|]. split; [exact Hrun|]. split; [exact Hitem|].
  exact (Hitems "d1" item Hitem).
Defined.

(** The record under [uuid-1] is that of the first page view. *)
Lemma batch_items_hold_first_records_witness :
  exists its obj,
    iterations [pageview_1; pageview_2] sample_world = Normal its
    /\ Part0.batchItems [pageview_1; pageview_2] sample_world =
       (Normal obj, world_after_all [pageview_1; pageview_2] sample_world)
    /\ events_of (own obj) "d1" !! "uuid-1" =
       (fun it => EntryEvent (it_record it)) <$>
         head (filter (fun it => it_batchKey it = "d1" /\ it_eventKey it = "uuid-1") its).
Proof.
  destruct two_pageviews_run as (its & Hits & Hplain & _).
  destruct (batch_items_hold_first_records [pageview_1; pageview_2] sample_world its
              Hits Hplain) as (obj & Hrun & Hrecords).
  exists its, obj. split; [exact Hits|]. split; [exact Hrun|]. apply Hrecords.
Defined.

(** The endpoint of that batch item comes from one of the two events. *)
Lemma batch_item_endpoints_witness :
  exists obj item e,
    Part0.batchItems [pageview_1; pageview_2] sample_world =
      (Normal obj, world_after_all [pageview_1; pageview_2] sample_world)
    /\ own obj !! "d1" = Some item
    /\ e ∈ [pageview_1; pageview_2]
    /\ Part0.getEndpoint e = Normal (Endpoint item).
Proof.
  destruct two_pageviews_run as (its & Hits & Hplain & Hkeys & _).
  destruct (batch_item_endpoints [pageview_1; pageview_2] sample_world its Hits)
    as (obj & Hrun & Hitems).
  assert (Hitem : is_Some (own obj !! "d1")).
  { destruct (Part0_endpoint_last_write_wins [pageview_1; pageview_2] sample_world its Hits)
      as (obj' & Hrun' & Hmember & _).
    rewrite Hrun in Hrun'. injection Hrun' as <-.
    destruct its as [|it its]; [discriminate|]. injection Hkeys as Hkey _.
    rewrite <- Hkey. apply Hmember; [apply elem_of_cons; now left|].
    rewrite Hkey. discriminate. }
  destruct Hitem as [item Hitem].
  destruct (Hitems "d1" item Hitem) as (e & Hin & Hend & _).
  exists obj, item, e. repeat split; assumption.
Defined.

(** The record of the first page view stays when the second follows. *)
Lemma more_events_keep_earlier_records_witness :
  exists obj1 obj12 r,
    fst (Part0.batchItems [pageview_1] sample_world) = Normal obj1
    /\ fst (Part0.batchItems ([pageview_1] ++ [pageview_2]) sample_world) = Normal obj12
    /\ events_of (own obj1) "d1" !! "uuid-1" = Some r
    /\ events_of (own obj12) "d1" !! "uuid-1" = Some r.
Proof.
  destruct two_pageviews_run as (its & Hits & Hplain & _).
  destruct (more_events_keep_earlier_records [pageview_1] [pageview_2] sample_world its
              Hits Hplain) as (obj1 & obj12 & Hrun1 & Hrun12 & _ & Hkeep).
  assert (Hr : exists r, events_of (own obj1) "d1" !! "uuid-1" = Some r).
  { rewrite batchItems_eq in Hrun1. injection Hrun1 as <-.
    eexists. vm_compute. reflexivity. }
  destruct Hr as [r Hr].
  exists obj1, obj12, r. repeat split; try assumption.
  exact (Hkeep "d1" "uuid-1" r Hr).
Defined.

(** The two page views take nothing from the world. *)
Lemma batch_items_consumption_witness :
  exists obj w',
    Part0.batchItems [pageview_1; pageview_2] sample_world = (Normal obj, w')
    /\ draws_taken w' = draws_taken sample_world
    /\ uuids_taken w' = uuids_taken sample_world
    /\ clock_reads w' = clock_reads sample_world.
Proof.
  destruct (batch_items_consumption [pageview_1; pageview_2] sample_world
              ltac:(repeat constructor)) as (obj & w' & Hrun & Hd & Hu & Hc).
  exists obj, w'. split; [exact Hrun|]. split; [|split].
  - rewrite Hd. reflexivity.
  - rewrite Hu. reflexivity.
  - rewrite Hc. reflexivity.
Defined.

(** The attribute of the device id of the first page view. *)
Lemma attributes_keep_property_keys_witness :
  "$device_id" ∈ Object_keys (default [] (properties pageview_1))
  /\ Part0.attributes_of pageview_1 !! "$device_id" =
       Some (Part0.getAttribute (Some (PluginEvent_members pageview_1)) "$device_id")
  /\ Index.attributes_of pageview_1 !! "$device_id" =
       Some (JSON_stringify (member "$device_id" (default [] (properties pageview_1)))).
Proof.
  assert (Hkey : "$device_id" ∈ Object_keys (default [] (properties pageview_1)))
    by (simpl; apply elem_of_cons; now left).
  split; [exact Hkey|].
  exact (proj2 (proj2 (attributes_keep_property_keys pageview_1)) "$device_id" Hkey).
Defined.

(** An event of the device [__proto__] reaches no batch item. *)
Lemma proto_device_gives_no_item_witness :
  exists obj,
    fst (Part0.batchItems [proto_visit] sample_world) = Normal obj
    /\ own obj = ∅
    /\ is_Some (prototype obj).
Proof.
  apply (proto_device_gives_no_item [proto_visit] sample_world).
  - discriminate.
  - repeat constructor.
  - repeat constructor.
  - repeat constructor.
Defined.

(** An event without a device id makes [src/index.ts] throw. *)
Lemma index_unidentified_event_throws_witness :
  fst (Index.batchItems [sample_event "pageview" None []] sample_world) = Throw TypeError
  /\ fst (Index.sendToPinpoint [sample_event "pageview" None []] sample_index_config
            sample_world) = Throw TypeError
  /\ submitted (snd (Index.sendToPinpoint [sample_event "pageview" None []]
                       sample_index_config sample_world)) = submitted sample_world.
Proof.
  apply (index_unidentified_event_throws (sample_event "pageview" None []) []
           sample_index_config sample_world).
  reflexivity.
Defined.

(** ** Values that do not print *)

(** An object with a member named [toString] makes the extraction of
    the endpoint, the conversion of the batch key and the dispatch of
    the second variant throw; [src/index.ts] throws on it as well. *)
Example unprintable_values_throw :
  ToString unprintable = Throw TypeError
  /\ Part0.getEndpoint unprintable_screen = Throw TypeError
  /\ fst (Part0.batchItems [unprintable_screen] sample_world) = Throw TypeError
  /\ fst (Part0.batchItems [unprintable_visit] sample_world) = Throw TypeError
  /\ fst (Index.batchItems [unprintable_visit] sample_world) = Throw TypeError.
Proof. repeat split; vm_compute; reflexivity. Qed.

(** A device id that names an inherited method lets [src/index.ts]
    build a batch item and submit a command. *)
Example inherited_key_is_dispatched :
  exists obj item,
    fst (Index.batchItems [inherited_1] sample_world) = Normal obj
    /\ own obj !! "valueOf" = Some item
    /\ Endpoint item = Index.fillEndpoint inherited_1
    /\ length (submitted (snd (Index.sendToPinpoint [inherited_1] sample_index_config
                                 sample_world))) = 1%nat.
Proof.
  eexists _, _. split; [vm_compute; reflexivity|].
  split; [vm_compute; reflexivity|]. split; [reflexivity|]. vm_compute. reflexivity.
Qed.
